(** * The memory subsystem of the simulator: riscv/devices.cc

    A shallow embedding of the address-space bus ([bus_t]), the sparse
    memory device ([mem_t]), the MMIO plugin registry with its device
    adapter ([mmio_plugin_device_t]) and the file-backed plugin, followed
    by the properties the specification states about them.

    Conventions.
    - [reg_t] is [uint64_t] and [size_t] is taken to be 64 bits wide
      (LP64); both are modelled as [Z], and every arithmetic operation of
      the source that can wrap is written with [wrap64].
    - A C++ exception is a [Throw] result; state reached before the throw
      is returned next to it.
    - A [uint8_t*] buffer is a [list byte] together with the offset the
      pointer has been advanced by. *)

From Stdlib Require Import Init.Byte Ascii String Sorted.
From stdpp Require Import gmap strings list.
From Equations Require Import Equations.

Local Open Scope Z_scope.

(** ** Machine integers *)

Definition reg_t := Z.
Definition size_t := Z.

Definition wrap64 (x : Z) : Z := x mod 2 ^ 64.

(** The values a 64-bit unsigned variable can hold. *)
Definition is_reg (x : Z) : Prop := 0 ≤ x < 2 ^ 64.

(** Modelled from the spec: [PGSHIFT] and [PGSIZE] are macros of a header
    that is not part of these sources; the specification fixes the page
    size at 4096 bytes and the page index at [addr >> 12]. *)
Definition PGSHIFT : Z := 12.
Definition PGSIZE : Z := Z.shiftl 1 PGSHIFT.

(** ** Exceptions and results *)

Inductive exn :=
  | runtime_error (what : string)
  | out_of_range
  | bad_alloc.

Inductive result (A : Type) :=
  | Ok (a : A)
  | Throw (e : exn).
Arguments Ok {A} a.
Arguments Throw {A} e.

Definition is_ok {A} (r : result A) : bool :=
  match r with Ok _ => true | Throw _ => false end.

(** The double quote character, for messages that contain one. *)
Definition dquote : string := String (Ascii.ascii_of_nat 34) EmptyString.

(** ** The C heap, as far as [calloc] is concerned

    [calloc] may return a null pointer.  Which calls do is decided by the
    environment: [calloc_fails h i] says whether the [i]-th call fails, and
    [calloc_count] counts the calls made so far. *)

Record heap_t := {
  calloc_fails : nat → bool;
  calloc_count : nat
}.

(** [calloc(nmemb, size)]: a zero-filled buffer of [nmemb * size] bytes, or
    [None] for the null pointer. *)
Definition calloc (nmemb size : Z) (h : heap_t) : option (list byte) * heap_t :=
  let h' := {| calloc_fails := calloc_fails h;
               calloc_count := S (calloc_count h) |} in
  if calloc_fails h (calloc_count h) then (None, h')
  else (Some (replicate (Z.to_nat (nmemb * size)) x00), h').

(** [memcpy(dst + doff, src + soff, n)], returning the new contents of the
    destination buffer. *)
Definition memcpy (dst : list byte) (doff : Z) (src : list byte) (soff : Z)
    (n : Z) : list byte :=
  list_inserts (Z.to_nat doff)
    (take (Z.to_nat n) (drop (Z.to_nat soff) src)) dst.

(** ** The sparse memory device, [mem_t] *)

Record mem_t := {
  sz : reg_t;
  sparse_memory_map : gmap Z (list byte)
}.

(** [mem_t::mem_t(reg_t size)] *)
Definition mem_t_new (size : reg_t) : result mem_t :=
  if (size =? 0) || negb (size mod PGSIZE =? 0) then
    Throw (runtime_error "memory size must be a positive multiple of 4 KiB")
  else
    Ok {| sz := size; sparse_memory_map := ∅ |}.

(** A [char*] into a page of the device: the page it points into and the
    offset inside that page. *)
Record page_ptr := { ptr_ppn : Z; ptr_off : Z }.

(** [mem_t::contents(reg_t addr)] *)
Definition contents (addr : reg_t) (m : mem_t) (h : heap_t)
    : result page_ptr * mem_t * heap_t :=
  let ppn := Z.shiftr addr PGSHIFT in
  let pgoff := addr mod PGSIZE in
  match sparse_memory_map m !! ppn with
  | None =>
      match calloc PGSIZE 1 h with
      | (None, h') => (Throw bad_alloc, m, h')
      | (Some res, h') =>
          (Ok {| ptr_ppn := ppn; ptr_off := pgoff |},
           {| sz := sz m;
              sparse_memory_map := <[ppn := res]> (sparse_memory_map m) |},
           h')
      end
  | Some _ => (Ok {| ptr_ppn := ppn; ptr_off := pgoff |}, m, h)
  end.

(** The bytes of the page a pointer returned by [contents] points into. *)
Definition page_of (m : mem_t) (p : page_ptr) : list byte :=
  default [] (sparse_memory_map m !! ptr_ppn p).

(** [memcpy(p, bytes + boff, n)] for a pointer [p] into a page. *)
Definition memcpy_to_page (p : page_ptr) (bytes : list byte) (boff n : Z)
    (m : mem_t) : mem_t :=
  {| sz := sz m;
     sparse_memory_map :=
       alter (λ page, memcpy page (ptr_off p) bytes boff n) (ptr_ppn p)
         (sparse_memory_map m) |}.

(** The chunk length of one iteration of the copy loop. *)
Definition chunk (addr : reg_t) (len : size_t) : Z :=
  Z.min (PGSIZE - addr mod PGSIZE) len.

Lemma chunk_decreases addr len :
  0 < len → (Z.to_nat (wrap64 (len - chunk addr len)) < Z.to_nat len)%nat.
Proof.
  intros Hlen. unfold chunk, wrap64.
  assert (0 ≤ addr mod PGSIZE < PGSIZE) by (apply Z.mod_pos_bound; done).
  assert (0 ≤ len - Z.min (PGSIZE - addr mod PGSIZE) len < len) as Hr by lia.
  pose proof (Z.mod_le (len - Z.min (PGSIZE - addr mod PGSIZE) len) (2 ^ 64)).
  pose proof (Z.mod_pos_bound (len - Z.min (PGSIZE - addr mod PGSIZE) len) (2 ^ 64)).
  lia.
Qed.

(** The [while (len > 0)] loop of [mem_t::load_store].  [boff] is how far
    the [bytes] pointer has been advanced. *)
Equations load_store_loop (addr : reg_t) (len : size_t) (bytes : list byte)
    (boff : Z) (store : bool) (m : mem_t) (h : heap_t)
    : result bool * list byte * mem_t * heap_t
    by wf (Z.to_nat len) lt :=
  load_store_loop addr len bytes boff store m h with Z_lt_dec 0 len => {
    | right _ => (Ok true, bytes, m, h)
    | left Hpos =>
        let n := chunk addr len in
        match contents addr m h with
        | (Throw e, m', h') => (Throw e, bytes, m', h')
        | (Ok p, m', h') =>
            if store then
              load_store_loop (wrap64 (addr + n)) (wrap64 (len - n)) bytes
                (boff + n) store (memcpy_to_page p bytes boff n m') h'
            else
              load_store_loop (wrap64 (addr + n)) (wrap64 (len - n))
                (memcpy bytes boff (page_of m' p) (ptr_off p) n)
                (boff + n) store m' h'
        end }.
Next Obligation. intros. apply chunk_decreases. done. Qed.
Next Obligation. intros. apply chunk_decreases. done. Qed.

(** [mem_t::load_store(addr, len, bytes, store)]: the outcome, the buffer,
    the device and the heap afterwards. *)
Definition load_store (addr : reg_t) (len : size_t) (bytes : list byte)
    (store : bool) (m : mem_t) (h : heap_t)
    : result bool * list byte * mem_t * heap_t :=
  if (wrap64 (addr + len) <? addr) || (wrap64 (addr + len) >? sz m) then
    (Ok false, bytes, m, h)
  else
    load_store_loop addr len bytes 0 store m h.

(** *** What a device holds *)

(** The invariant of the page map: every page is a buffer of [PGSIZE]
    bytes. *)
Definition mem_wf (m : mem_t) : Prop :=
  ∀ ppn page, sparse_memory_map m !! ppn = Some page →
    length page = Z.to_nat PGSIZE.

(** The byte the device holds at [a]: the byte of its page when the page
    is allocated, zero (what a page is filled with on first touch)
    otherwise. *)
Definition byte_at (m : mem_t) (a : Z) : byte :=
  match sparse_memory_map m !! Z.shiftr a PGSHIFT with
  | Some page => default x00 (page !! Z.to_nat (a mod PGSIZE))
  | None => x00
  end.

(** The devices that [m0] can become through loads alone, whatever the
    requests and whatever their outcomes: no store is performed. *)
Inductive loads_only (m0 : mem_t) : mem_t → Prop :=
  | loads_none : loads_only m0 m0
  | loads_more m addr len bytes h r bytes' m' h' :
      loads_only m0 m →
      load_store addr len bytes false m h = (r, bytes', m', h') →
      loads_only m0 m'.

(** ** The address-space bus, [bus_t]

    [std::map<reg_t, abstract_device_t*>] is an ordered container: its
    iteration order is the order of the keys.  It is modelled as the list
    of its entries in that order; an iterator is a position in the list,
    [begin()] is position 0 and [end()] is the length. *)

Section Bus.
(** The state the devices live in and their virtual methods act on. *)
Context {W : Type}.

(** A device behind an [abstract_device_t*]: its two virtual methods.
    [load] may write the buffer, [store] only reads it. *)
Record abstract_device_t := {
  dev_load : reg_t → size_t → list byte → W → result bool * list byte * W;
  dev_store : reg_t → size_t → list byte → W → result bool * W
}.

Definition bus_t := list (reg_t * abstract_device_t).

(** [devices[addr] = dev] on the ordered map. *)
Fixpoint map_assign (addr : reg_t) (dev : abstract_device_t)
    (devices : bus_t) : bus_t :=
  match devices with
  | [] => [(addr, dev)]
  | (k, d) :: rest =>
      if addr <? k then (addr, dev) :: (k, d) :: rest
      else if addr =? k then (addr, dev) :: rest
      else (k, d) :: map_assign addr dev rest
  end.

(** [devices.upper_bound(addr)]: the position of the first entry whose
    key is greater than [addr], [end()] when there is none. *)
Fixpoint upper_bound (addr : reg_t) (devices : bus_t) : nat :=
  match devices with
  | [] => 0%nat
  | (k, _) :: rest =>
      if addr <? k then 0%nat else S (upper_bound addr rest)
  end.

Definition empty (devices : bus_t) : bool :=
  match devices with [] => true | _ => false end.

(** [bus_t::add_device] *)
Definition add_device (addr : reg_t) (dev : abstract_device_t)
    (devices : bus_t) : bus_t :=
  map_assign addr dev devices.

(** [bus_t::load].  The last case dereferences an iterator that points
    at no entry; the source never does (see [upper_bound_pred]). *)
Definition bus_load (devices : bus_t) (addr : reg_t) (len : size_t)
    (bytes : list byte) (w : W) : result bool * list byte * W :=
  let it := upper_bound addr devices in
  if empty devices || (it =? 0)%nat then (Ok false, bytes, w)
  else
    let it := pred it in
    match devices !! it with
    | Some (first, second) =>
        dev_load second (wrap64 (addr - first)) len bytes w
    | None => (Ok false, bytes, w)
    end.

(** [bus_t::store] *)
Definition bus_store (devices : bus_t) (addr : reg_t) (len : size_t)
    (bytes : list byte) (w : W) : result bool * W :=
  let it := upper_bound addr devices in
  if empty devices || (it =? 0)%nat then (Ok false, w)
  else
    let it := pred it in
    match devices !! it with
    | Some (first, second) =>
        dev_store second (wrap64 (addr - first)) len bytes w
    | None => (Ok false, w)
    end.

(** [bus_t::find_device]; [None] is the null device pointer. *)
Definition find_device (devices : bus_t) (addr : reg_t)
    : reg_t * option abstract_device_t :=
  let it := upper_bound addr devices in
  if empty devices || (it =? 0)%nat then (0, None)
  else
    let it := pred it in
    match devices !! it with
    | Some (first, second) => (first, Some second)
    | None => (0, None)
    end.

(** The bus after binding the devices of [bindings], first to last, on
    an empty bus. *)
Definition bus_of (bindings : list (reg_t * abstract_device_t)) : bus_t :=
  foldl (λ devices b, add_device b.1 b.2 devices) [] bindings.

(** The invariant of the ordered map: keys strictly increase. *)
Definition ordered (devices : bus_t) : Prop :=
  StronglySorted Z.lt devices.*1.
End Bus.
Arguments abstract_device_t : clear implicits.
Arguments bus_t : clear implicits.

(** ** The plugin registry and the plugin device adapter *)

Section Plugin.
(** [W] is the state plugin code acts on; [H] is what a plugin's
    [void*] user data points to.  [None] is the null pointer. *)
Context {H W : Type}.

(** [mmio_plugin_t]: the function table of a plugin. *)
Record mmio_plugin_t := {
  alloc : string → W → option H * W;
  load : option H → reg_t → size_t → list byte → W → bool * list byte * W;
  store : option H → reg_t → size_t → list byte → W → bool * W;
  dealloc : option H → W → W
}.

(** [std::map::emplace]: inserts unless the key is present; the flag
    tells whether it inserted. *)
Definition emplace (name : string) (p : mmio_plugin_t)
    (map : gmap string mmio_plugin_t) : gmap string mmio_plugin_t * bool :=
  match map !! name with
  | Some _ => (map, false)
  | None => (<[name := p]> map, true)
  end.

(** [register_mmio_plugin], acting on the singleton [mmio_plugin_map()]. *)
Definition register_mmio_plugin (name : string) (mmio_plugin : mmio_plugin_t)
    (map : gmap string mmio_plugin_t)
    : result unit * gmap string mmio_plugin_t :=
  let '(map', inserted) := emplace name mmio_plugin map in
  if negb inserted then
    (Throw (runtime_error
              ("Plugin " +:+ dquote +:+ name +:+ dquote +:+
               " already registered!")), map')
  else (Ok (), map').

(** [mmio_plugin_device_t]: the descriptor and the user data. *)
Record mmio_plugin_device_t := {
  plugin : mmio_plugin_t;
  user_data : option H
}.

(** The constructor [mmio_plugin_device_t(name, args)]:
    the member [plugin] is initialised with [mmio_plugin_map().at(name)],
    then [user_data] with what the plugin's [alloc] returns for
    [args.c_str()]. *)
Definition mmio_plugin_device_new (name args : string)
    (map : gmap string mmio_plugin_t) (w : W)
    : result mmio_plugin_device_t * W :=
  match map !! name with
  | None => (Throw out_of_range, w)
  | Some p =>
      let '(data, w') := alloc p args w in
      (Ok {| plugin := p; user_data := data |}, w')
  end.

(** The destructor. *)
Definition mmio_plugin_device_delete (d : mmio_plugin_device_t) (w : W) : W :=
  dealloc (plugin d) (user_data d) w.

Definition mmio_plugin_device_load (d : mmio_plugin_device_t)
    (addr : reg_t) (len : size_t) (bytes : list byte) (w : W)
    : bool * list byte * W :=
  load (plugin d) (user_data d) addr len bytes w.

(** A sequence of calls of [register_mmio_plugin], first to last; a call
    that throws leaves the registry to the next one. *)
Definition register_all (regs : list (string * mmio_plugin_t))
    (map : gmap string mmio_plugin_t) : gmap string mmio_plugin_t :=
  foldl (λ map r, (register_mmio_plugin r.1 r.2 map).2) map regs.
End Plugin.
Arguments mmio_plugin_t : clear implicits.
Arguments mmio_plugin_device_t : clear implicits.

(** ** The operating system, as the file plugin sees it

    What each system call answers is given by the environment [os_env];
    [os_t] adds the resources the process holds: its open descriptors and
    its established mappings, each with the bytes visible through it. *)

Definition NULL : Z := 0.

(** [MAP_FAILED] is the pointer [-1]. *)
Definition MAP_FAILED : Z := wrap64 (-1).

Record os_env := {
  sys_open : string → bool → Z;
  sys_lseek_end : Z → Z;
  sys_mmap : Z → bool → Z → Z;
  sys_file : Z → list byte;
  sys_close : Z → Z;
  sys_malloc : bool
}.

Record os_t := {
  env : os_env;
  open_fds : gset Z;
  mappings : gmap Z (list byte)
}.

(** [open(filename, writable ? O_RDWR : O_RDONLY)]: a descriptor, or a
    negative value and no descriptor. *)
Definition os_open (filename : string) (writable : bool) (os : os_t)
    : Z * os_t :=
  let fd := sys_open (env os) filename writable in
  (fd, if fd <? 0 then os
       else {| env := env os; open_fds := {[fd]} ∪ open_fds os;
               mappings := mappings os |}).

(** [lseek(fd, 0, SEEK_END)] *)
Definition os_lseek_end (fd : Z) (os : os_t) : Z := sys_lseek_end (env os) fd.

(** [mmap(NULL, length, prot, MAP_SHARED, fd, 0)]: the address of a new
    mapping of [length] bytes, or [MAP_FAILED] and no mapping. *)
Definition os_mmap (length : Z) (writable : bool) (fd : Z) (os : os_t)
    : Z * os_t :=
  let a := sys_mmap (env os) length writable fd in
  (a, if a =? MAP_FAILED then os
      else {| env := env os; open_fds := open_fds os;
              mappings := <[a := resize (Z.to_nat length) x00
                                   (sys_file (env os) fd)]> (mappings os) |}).

(** [close(fd)]: the descriptor is released whatever the call returns. *)
Definition os_close (fd : Z) (os : os_t) : Z * os_t :=
  (sys_close (env os) fd,
   {| env := env os; open_fds := open_fds os ∖ {[fd]};
      mappings := mappings os |}).

(** [munmap(addr, length)] of a whole mapping. *)
Definition os_munmap (addr length : Z) (os : os_t) : os_t :=
  {| env := env os; open_fds := open_fds os;
     mappings := delete addr (mappings os) |}.

(** ** The file-backed plugin *)

Record file_plugin_data := {
  data_fd : Z;
  data_addr : Z;
  data_length : Z;
  data_writable : bool
}.

(** [strchr(s, c)]: the offset of the first [c] in [s], [None] for the
    null pointer. *)
Fixpoint strchr (s : string) (c : Ascii.ascii) : option nat :=
  match s with
  | EmptyString => None
  | String a rest => if Ascii.eqb a c then Some 0%nat else S <$> strchr rest c
  end.

(** The loop over the flag characters before the colon; [None] is the
    [return NULL] inside it. *)
Fixpoint parse_flags (flags : string) (writable : bool) : option bool :=
  match flags with
  | EmptyString => Some writable
  | String flag rest =>
      if Ascii.eqb flag "w"%char then parse_flags rest true else None
  end.

(** The first part of [file_plugin_alloc]: file name and writable flag. *)
Definition parse_args (args : string) : option (string * bool) :=
  match strchr args ":"%char with
  | None => Some (args, false)
  | Some colon =>
      match parse_flags (substring 0 colon args) false with
      | Some writable =>
          Some (substring (S colon) (String.length args - S colon) args,
                writable)
      | None => None
      end
  end.

(** [file_plugin_alloc].  [None] is the null pointer it returns to signal
    failure. *)
Definition file_plugin_alloc (args : string) (os : os_t)
    : option file_plugin_data * os_t :=
  match parse_args args with
  | None => (None, os)
  | Some (filename, writable) =>
      let '(fd, os) := os_open filename writable os in
      if fd <? 0 then (None, os)
      else
        let length := os_lseek_end fd os in
        if length =? 0 then
          let '(_, os) := os_close fd os in (None, os)
        else
          let '(addr, os) := os_mmap (wrap64 length) writable fd os in
          if addr =? NULL then
            let '(_, os) := os_close fd os in (None, os)
          else
            let '(rc, os) := os_close fd os in
            if negb (rc =? 0) then (None, os)
            else if negb (sys_malloc (env os)) then
              (None, os_munmap addr (wrap64 length) os)
            else
              (Some {| data_fd := fd; data_addr := addr;
                       data_length := wrap64 length;
                       data_writable := writable |}, os)
  end.

(** The bytes visible through the mapping a handle records. *)
Definition mapped (data2 : file_plugin_data) (os : os_t) : list byte :=
  default [] (mappings os !! data_addr data2).

(** [file_plugin_load].  A null [data] is dereferenced by the source; the
    model answers [false] there. *)
Definition file_plugin_load (data : option file_plugin_data) (offset : reg_t)
    (width : size_t) (buffer : list byte) (os : os_t)
    : bool * list byte * os_t :=
  match data with
  | None => (false, buffer, os)
  | Some data2 =>
      if offset >=? data_length data2 then (false, buffer, os)
      else (true, memcpy buffer 0 (mapped data2 os) offset width, os)
  end.

(** [file_plugin_store] *)
Definition file_plugin_store (data : option file_plugin_data) (offset : reg_t)
    (width : size_t) (buffer : list byte) (os : os_t) : bool * os_t :=
  match data with
  | None => (false, os)
  | Some data2 =>
      if negb (data_writable data2) || (offset >=? data_length data2) then
        (false, os)
      else
        (true,
         {| env := env os; open_fds := open_fds os;
            mappings :=
              alter (λ m, memcpy m offset buffer 0 width) (data_addr data2)
                (mappings os) |})
  end.

(** [file_plugin_dealloc] *)
Definition file_plugin_dealloc (data : option file_plugin_data) (os : os_t)
    : os_t :=
  match data with
  | Some data2 => os_munmap (data_addr data2) (data_length data2) os
  | None => os
  end.

Definition file_plugin : mmio_plugin_t file_plugin_data os_t :=
  {| alloc := file_plugin_alloc;
     load := file_plugin_load;
     store := file_plugin_store;
     dealloc := file_plugin_dealloc |}.

(** [init_file_plugin], run once at start-up on the empty registry. *)
Definition init_file_plugin
    (map : gmap string (mmio_plugin_t file_plugin_data os_t)) :=
  register_mmio_plugin "file" file_plugin map.

(** ** Example states

    Concrete devices, heaps and operating-system environments on which the
    statements below are exercised. *)

(** A heap on which every [calloc] succeeds. *)
Definition heap_ok : heap_t :=
  {| calloc_fails := λ _, false; calloc_count := 0 |}.

(** A device of two pages, as the constructor leaves it. *)
Definition mem_2pages : mem_t := {| sz := 8192; sparse_memory_map := ∅ |}.

(** An environment in which [/tmp/x] holds sixteen zero bytes and every
    call succeeds: [open] answers descriptor 3 and [mmap] an address. *)
Definition env_ok : os_env :=
  {| sys_open := λ _ _, 3;
     sys_lseek_end := λ _, 16;
     sys_mmap := λ _ _ _, 139637976727552;
     sys_file := λ _, replicate 16 x00;
     sys_close := λ _, 0;
     sys_malloc := true |}.

(** The same, except that [close] reports an error. *)
Definition env_close_fails : os_env :=
  {| sys_open := sys_open env_ok;
     sys_lseek_end := sys_lseek_end env_ok;
     sys_mmap := sys_mmap env_ok;
     sys_file := sys_file env_ok;
     sys_close := λ _, -1;
     sys_malloc := true |}.

(** The same as [env_ok], except that [mmap] fails. *)
Definition env_mmap_fails : os_env :=
  {| sys_open := sys_open env_ok;
     sys_lseek_end := sys_lseek_end env_ok;
     sys_mmap := λ _ _ _, MAP_FAILED;
     sys_file := sys_file env_ok;
     sys_close := sys_close env_ok;
     sys_malloc := true |}.

(** A process that holds the three standard descriptors and no mapping. *)
Definition os_start (e : os_env) : os_t :=
  {| env := e; open_fds := {[0; 1; 2]}; mappings := ∅ |}.

(** The registry once [init_file_plugin] has run. *)
Definition registry_start : gmap string (mmio_plugin_t file_plugin_data os_t) :=
  (init_file_plugin ∅).2.

(** A device that answers every access with [true] and records, in the
    state, its tag and the offset it was called with. *)
Definition probe (tag : nat) : abstract_device_t (list (nat * Z)) :=
  {| dev_load := λ off _ bytes log, (Ok true, bytes, log ++ [(tag, off)]);
     dev_store := λ off _ _ log, (Ok true, log ++ [(tag, off)]) |}.

(** Scenario 1 of the specification: device 1 at [0x1000], device 2 at
    [0x2000], bound in the opposite order. *)
Definition bindings_ab : list (reg_t * abstract_device_t (list (nat * Z))) :=
  [(8192, probe 2); (4096, probe 1)].

(** A plugin whose [alloc] always returns the null pointer. *)
Definition null_plugin : mmio_plugin_t file_plugin_data os_t :=
  {| alloc := λ _ os, (None, os);
     load := λ _ _ _ bytes os, (false, bytes, os);
     store := λ _ _ _ _ os, (false, os);
     dealloc := λ _ os, os |}.

(** A heap on which every [calloc] fails. *)
Definition heap_full : heap_t :=
  {| calloc_fails := λ _, true; calloc_count := 0 |}.

(** * Properties *)

(** ** Arithmetic helpers *)

Lemma PGSIZE_eq : PGSIZE = 4096.
Proof. reflexivity. Qed.

Lemma wrap64_small x : is_reg x → wrap64 x = x.
Proof. intros Hx. apply Z.mod_small. exact Hx. Qed.

Lemma wrap64_overflow x : 2 ^ 64 ≤ x < 2 * 2 ^ 64 → wrap64 x = x - 2 ^ 64.
Proof.
  intros Hx. unfold wrap64.
  rewrite <- (Z.mod_small (x - 2 ^ 64) (2 ^ 64)) by lia.
  replace x with (x - 2 ^ 64 + 1 * 2 ^ 64) at 1 by lia.
  apply Z_mod_plus_full.
Qed.

(** ** Construction of the sparse memory device *)

(** C9: for a 64-bit [size], constructing a sparse memory device succeeds
    exactly when [size > 0] and [size] is a multiple of 4096; it then has
    that size and no page.  For every other size the constructor throws
    the one configuration error. *)
Theorem mem_t_new_spec (size : reg_t) :
  is_reg size →
  (is_ok (mem_t_new size) = true ↔ 0 < size ∧ size mod 4096 = 0) ∧
  (0 < size ∧ size mod 4096 = 0 →
     mem_t_new size = Ok {| sz := size; sparse_memory_map := ∅ |}) ∧
  (size = 0 ∨ size mod 4096 ≠ 0 →
     mem_t_new size =
       Throw (runtime_error
                "memory size must be a positive multiple of 4 KiB")).
Proof.
  intros [Hlo _]. unfold mem_t_new. rewrite PGSIZE_eq.
  destruct (Z.eqb_spec size 0) as [->|Hne]; simpl.
  - split; [split; [discriminate | lia] | split; [lia | done]].
  - destruct (Z.eqb_spec (size mod 4096) 0) as [Hm|Hm]; simpl.
    + split; [split; [lia | done] | split; [done | lia]].
    + split; [split; [discriminate | lia] | split; [lia | done]].
Qed.

Lemma mem_t_new_spec_witness :
  is_ok (mem_t_new 8192) = true ∧
  mem_t_new 4097 =
    Throw (runtime_error "memory size must be a positive multiple of 4 KiB").
Proof.
  assert (is_reg 8192) as H1 by (unfold is_reg; lia).
  assert (is_reg 4097) as H2 by (unfold is_reg; lia).
  split.
  - apply (proj1 (mem_t_new_spec 8192 H1)). split; [lia | reflexivity].
  - apply (proj2 (proj2 (mem_t_new_spec 4097 H2))). right. vm_compute. discriminate.
Defined.

(** ** The bounds check of [load_store] *)

(** C2: a request whose [addr + len] does not fit in 64 bits, or exceeds
    the size of the device, returns false and leaves the buffer, the device
    (size and page map) and the heap as they were, for loads and stores
    alike. *)
Theorem load_store_out_of_bounds (addr : reg_t) (len : size_t)
    (bytes : list byte) (store : bool) (m : mem_t) (h : heap_t) :
  is_reg addr → is_reg len →
  2 ^ 64 ≤ addr + len ∨ sz m < addr + len →
  load_store addr len bytes store m h = (Ok false, bytes, m, h).
Proof.
  intros Ha Hl Hbad. unfold load_store, is_reg in *.
  destruct (Z_lt_le_dec (addr + len) (2 ^ 64)) as [Hfit|Hover].
  - rewrite wrap64_small by (unfold is_reg; lia).
    destruct Hbad as [?|Hsz]; [lia|].
    replace (addr + len >? sz m) with true by (symmetry; apply Z.gtb_lt; lia).
    by rewrite orb_true_r.
  - rewrite wrap64_overflow by lia.
    replace (addr + len - 2 ^ 64 <? addr) with true
      by (symmetry; apply Z.ltb_lt; lia).
    done.
Qed.

Lemma load_store_out_of_bounds_witness :
  load_store 8190 4 [x01; x02; x03; x04] true mem_2pages heap_ok =
    (Ok false, [x01; x02; x03; x04], mem_2pages, heap_ok).
Proof.
  apply load_store_out_of_bounds; [unfold is_reg; lia | unfold is_reg; lia |].
  right. simpl. lia.
Defined.

(** ** The sparse memory device: loads and stores *)

Lemma load_store_loop_step addr len bytes boff store m h :
  load_store_loop addr len bytes boff store m h =
    if Z_lt_dec 0 len then
      let n := chunk addr len in
      match contents addr m h with
      | (Throw e, m', h') => (Throw e, bytes, m', h')
      | (Ok p, m', h') =>
          if store then
            load_store_loop (wrap64 (addr + n)) (wrap64 (len - n)) bytes
              (boff + n) store (memcpy_to_page p bytes boff n m') h'
          else
            load_store_loop (wrap64 (addr + n)) (wrap64 (len - n))
              (memcpy bytes boff (page_of m' p) (ptr_off p) n)
              (boff + n) store m' h'
      end
    else (Ok true, bytes, m, h).
Proof.
  rewrite load_store_loop_equation_1.
  destruct (Z_lt_dec 0 len) as [Hpos|Hneg]; simpl; [|reflexivity].
  destruct (contents addr m h) as [[[p|e] m'] h']; [|reflexivity].
  destruct store; reflexivity.
Qed.

Lemma page_locality (addr a : Z) :
  addr ≤ a < addr + (PGSIZE - addr mod PGSIZE) →
  Z.shiftr a PGSHIFT = Z.shiftr addr PGSHIFT ∧
  a mod PGSIZE = addr mod PGSIZE + (a - addr).
Proof.
  intros Ha. rewrite !Z.shiftr_div_pow2 by done.
  change (2 ^ PGSHIFT) with 4096. rewrite PGSIZE_eq in *.
  Z.to_euclidean_division_equations. lia.
Qed.

(** *** [memcpy] *)

Lemma length_memcpy dst doff src soff n :
  length (memcpy dst doff src soff n) = length dst.
Proof. apply length_inserts. Qed.

Lemma memcpy_lookup dst doff src soff n (i : nat) :
  0 ≤ doff → 0 ≤ soff → 0 ≤ n →
  soff + n ≤ Z.of_nat (length src) → doff + n ≤ Z.of_nat (length dst) →
  memcpy dst doff src soff n !! i =
    if decide (doff ≤ Z.of_nat i < doff + n)
    then src !! Z.to_nat (soff + (Z.of_nat i - doff))
    else dst !! i.
Proof.
  intros Hd Hs Hn Hsrc Hdst. unfold memcpy.
  assert (length (take (Z.to_nat n) (drop (Z.to_nat soff) src)) = Z.to_nat n)
    as Hlen by (rewrite length_take, length_drop; lia).
  case_decide as Hi.
  - rewrite list_lookup_inserts by lia.
    rewrite lookup_take_lt by lia. rewrite lookup_drop. f_equal. lia.
  - destruct (decide (i < Z.to_nat doff)%nat).
    + by apply list_lookup_inserts_lt.
    + apply list_lookup_inserts_ge. lia.
Qed.

Lemma lookup_default_lt (l : list byte) (i : nat) :
  (i < length l)%nat → l !! i = Some (default x00 (l !! i)).
Proof. intros [x ->]%lookup_lt_is_Some. done. Qed.

Lemma zero_page_lookup n (i : nat) : default x00 (replicate n x00 !! i) = x00.
Proof.
  destruct (replicate n x00 !! i) as [x|] eqn:E; [|done].
  by apply lookup_replicate in E as [-> _].
Qed.

(** *** [contents] *)

Lemma contents_sz addr m h r m' h' :
  contents addr m h = (r, m', h') → sz m' = sz m.
Proof.
  unfold contents, calloc.
  remember (replicate (Z.to_nat (PGSIZE * 1)) x00) as zp eqn:Hzp.
  destruct (sparse_memory_map m !! _); [by intros [= <- <- <-]|].
  destruct (calloc_fails h _); by intros [= <- <- <-].
Qed.

Lemma contents_mono addr m h r m' h' ppn page :
  contents addr m h = (r, m', h') →
  sparse_memory_map m !! ppn = Some page →
  sparse_memory_map m' !! ppn = Some page.
Proof.
  unfold contents, calloc.
  remember (replicate (Z.to_nat (PGSIZE * 1)) x00) as zp eqn:Hzp.
  destruct (sparse_memory_map m !! Z.shiftr addr PGSHIFT) eqn:E;
    [by intros [= <- <- <-]|].
  destruct (calloc_fails h _); intros [= <- <- <-]; [done|]. cbn [sparse_memory_map].
  intros Hl. rewrite lookup_insert_ne; [done|]. congruence.
Qed.

Lemma contents_wf addr m h r m' h' :
  contents addr m h = (r, m', h') → mem_wf m → mem_wf m'.
Proof.
  unfold contents, calloc.
  remember (replicate (Z.to_nat (PGSIZE * 1)) x00) as zp eqn:Hzp.
  destruct (sparse_memory_map m !! Z.shiftr addr PGSHIFT) eqn:E;
    [by intros [= <- <- <-]|].
  destruct (calloc_fails h _); intros [= <- <- <-]; [done|].
  intros Hwf ppn page. cbn [sparse_memory_map]. rewrite lookup_insert.
  case_decide; [|by apply Hwf].
  intros [= <-]. rewrite Hzp, length_replicate. by rewrite Z.mul_1_r.
Qed.

Lemma contents_byte_at addr m h r m' h' a :
  contents addr m h = (r, m', h') → byte_at m' a = byte_at m a.
Proof.
  unfold contents, calloc.
  remember (replicate (Z.to_nat (PGSIZE * 1)) x00) as zp eqn:Hzp.
  destruct (sparse_memory_map m !! Z.shiftr addr PGSHIFT) eqn:E;
    [by intros [= <- <- <-]|].
  destruct (calloc_fails h _); intros [= <- <- <-]; [done|].
  unfold byte_at. cbn [sparse_memory_map]. rewrite lookup_insert. case_decide as Heq; [|done].
  rewrite <- Heq, E, Hzp. apply zero_page_lookup.
Qed.

Lemma contents_ok_inv addr m h p m' h' :
  contents addr m h = (Ok p, m', h') →
  p = {| ptr_ppn := Z.shiftr addr PGSHIFT; ptr_off := addr mod PGSIZE |} ∧
  is_Some (sparse_memory_map m' !! Z.shiftr addr PGSHIFT).
Proof.
  unfold contents, calloc.
  remember (replicate (Z.to_nat (PGSIZE * 1)) x00) as zp eqn:Hzp.
  destruct (sparse_memory_map m !! Z.shiftr addr PGSHIFT) eqn:E.
  - intros [= <- <- <-]. by rewrite E.
  - destruct (calloc_fails h _); intros [= <- <- <-]. cbn [sparse_memory_map].
    by rewrite lookup_insert_eq.
Qed.

Lemma contents_present addr m h :
  is_Some (sparse_memory_map m !! Z.shiftr addr PGSHIFT) →
  contents addr m h =
    (Ok {| ptr_ppn := Z.shiftr addr PGSHIFT; ptr_off := addr mod PGSIZE |},
     m, h).
Proof. intros [page Hp]. unfold contents. by rewrite Hp. Qed.

(** *** The copy loop *)

Lemma chunk_bounds addr len :
  0 < len →
  1 ≤ chunk addr len ≤ len ∧ chunk addr len ≤ PGSIZE - addr mod PGSIZE ∧
  0 ≤ addr mod PGSIZE.
Proof.
  intros Hlen. unfold chunk.
  assert (0 ≤ addr mod PGSIZE < PGSIZE) by (apply Z.mod_pos_bound; done). lia.
Qed.

(** A request that passes the guard of [load_store] fits in 64 bits and in
    the device. *)
Lemma load_store_guard addr len m :
  is_reg addr → is_reg len →
  (wrap64 (addr + len) <? addr) || (wrap64 (addr + len) >? sz m) = false →
  addr + len < 2 ^ 64 ∧ addr + len ≤ sz m.
Proof.
  unfold is_reg. intros Ha Hl Hg. apply orb_false_iff in Hg as [Hg1 Hg2].
  apply Z.ltb_ge in Hg1. rewrite Z.gtb_ltb in Hg2. apply Z.ltb_ge in Hg2.
  destruct (Z_lt_le_dec (addr + len) (2 ^ 64)) as [Hfit|Hover].
  - rewrite wrap64_small in Hg2 by (unfold is_reg; lia). lia.
  - rewrite wrap64_overflow in Hg1 by lia. lia.
Qed.


(** What a load that runs to completion leaves in the buffer and in the
    device. *)
Lemma load_loop_spec (n : nat) :
  ∀ addr len bytes boff m h bytes' m' h',
    (Z.to_nat len ≤ n)%nat → mem_wf m →
    0 ≤ addr → 0 ≤ len → addr + len < 2 ^ 64 →
    0 ≤ boff → boff + len ≤ Z.of_nat (length bytes) →
    load_store_loop addr len bytes boff false m h = (Ok true, bytes', m', h') →
    length bytes' = length bytes ∧
    (∀ i : nat, bytes' !! i =
       if decide (boff ≤ Z.of_nat i < boff + len)
       then Some (byte_at m (addr + (Z.of_nat i - boff)))
       else bytes !! i) ∧
    (∀ a, byte_at m' a = byte_at m a) ∧
    mem_wf m' ∧ sz m' = sz m.
Proof.
  induction n as [|n IH];
    intros addr len bytes boff m h bytes' m' h' Hn Hwf Ha Hl Hfit Hb Hbuf;
    rewrite load_store_loop_step;
    (destruct (Z_lt_dec 0 len) as [Hpos|Hzero];
     [|intros [= <- <- <-]; repeat split; try done;
       intros i; case_decide; [lia|done]]).
  { lia. }
  destruct (contents addr m h) as [[[p|e] m1] h1] eqn:Hc; [|discriminate].
  cbv zeta. destruct (chunk_bounds addr len Hpos) as (Hc1 & Hc2 & Hc3).
  set (c := chunk addr len) in *.
  rewrite (wrap64_small (addr + c)), (wrap64_small (len - c))
    by (unfold is_reg; lia).
  pose proof (contents_wf _ _ _ _ _ _ Hc Hwf) as Hwf1.
  destruct (contents_ok_inv _ _ _ _ _ _ Hc) as [-> [page Hpage]].
  assert (length page = Z.to_nat PGSIZE) as Hplen by (by eapply Hwf1).
  pose proof PGSIZE_eq as HPG.
  unfold page_of. cbn [ptr_ppn ptr_off]. rewrite Hpage. cbn [from_option id].
  intros Hrec. apply IH in Hrec as (Hlen' & Hlk & Hba & Hwf' & Hsz'); try lia.
  2: done.
  2: { rewrite length_memcpy. lia. }
  rewrite length_memcpy in Hlen'.
  split; [done|]. split; [|split; [|split]].
  - intros i. rewrite Hlk. clear Hlk.
    rewrite memcpy_lookup by lia.
    repeat case_decide; try lia; try done.
    + f_equal. rewrite (contents_byte_at _ _ _ _ _ _ _ Hc). f_equal. lia.
    + rewrite <- (contents_byte_at _ _ _ _ _ _ (addr + (Z.of_nat i - boff)) Hc).
      unfold byte_at.
      destruct (page_locality addr (addr + (Z.of_nat i - boff))) as [-> ->]; [lia|].
      rewrite Hpage.
      replace (addr + (Z.of_nat i - boff) - addr) with (Z.of_nat i - boff) by lia.
      apply lookup_default_lt. lia.
  - intros a. rewrite Hba. by eapply contents_byte_at.
  - done.
  - rewrite Hsz'. by eapply contents_sz.
Qed.

(** One chunk of a store: the bytes of the chunk are replaced, every other
    byte of the device stays. *)
Lemma memcpy_to_page_spec addr m bytes boff c page :
  sparse_memory_map m !! Z.shiftr addr PGSHIFT = Some page →
  mem_wf m → 0 ≤ boff → 1 ≤ c ≤ PGSIZE - addr mod PGSIZE →
  boff + c ≤ Z.of_nat (length bytes) →
  let m' := memcpy_to_page
              {| ptr_ppn := Z.shiftr addr PGSHIFT; ptr_off := addr mod PGSIZE |}
              bytes boff c m in
  mem_wf m' ∧ sz m' = sz m ∧
  (∀ a, byte_at m' a =
     if decide (addr ≤ a < addr + c)
     then default x00 (bytes !! Z.to_nat (boff + (a - addr)))
     else byte_at m a) ∧
  (∀ ppn, is_Some (sparse_memory_map m' !! ppn) ↔
          is_Some (sparse_memory_map m !! ppn)).
Proof.
  intros Hpage Hwf Hb Hc Hbuf m'. pose proof PGSIZE_eq as HPG.
  assert (0 ≤ addr mod PGSIZE < PGSIZE) as Hoff by (apply Z.mod_pos_bound; lia).
  assert (length page = Z.to_nat PGSIZE) as Hplen by (by eapply Hwf).
  split; [|split; [done|split]].
  - intros ppn pg. unfold m', memcpy_to_page. cbn [sparse_memory_map ptr_ppn ptr_off].
    rewrite lookup_alter_Some. intros [[_ (pg0 & Hpg0 & ->)]|[_ Hpg]].
    + rewrite length_memcpy. by eapply Hwf.
    + by eapply Hwf.
  - intros a. unfold byte_at, m', memcpy_to_page.
    cbn [sparse_memory_map ptr_ppn ptr_off]. rewrite lookup_alter.
    case_decide as Hppn.
    + rewrite <- Hppn, Hpage. cbn [fmap option_fmap option_map].
      assert (0 ≤ a mod PGSIZE < PGSIZE) as Hoa by (apply Z.mod_pos_bound; lia).
      rewrite <- (Z2Nat.id (a mod PGSIZE)) at 1 by lia.
      rewrite memcpy_lookup by lia. rewrite Z2Nat.id by lia.
      assert (a - addr = a mod PGSIZE - addr mod PGSIZE) as Hdiff.
      { rewrite !Z.shiftr_div_pow2 in Hppn by done.
        change (2 ^ PGSHIFT) with 4096 in Hppn. rewrite HPG in *.
        Z.to_euclidean_division_equations. lia. }
      repeat case_decide; try lia; try done; do 3 f_equal; lia.
    + case_decide as Hin; [|done].
      destruct (page_locality addr a) as [Heq _]; [lia|]. congruence.
  - intros ppn. unfold m', memcpy_to_page. cbn [sparse_memory_map].
    apply lookup_alter_is_Some.
Qed.

(** What a store that runs to completion leaves in the device: the bytes of
    the request are in place, every page of the range is allocated, and
    the rest of the device is as before. *)
Lemma store_loop_spec (n : nat) :
  ∀ addr len bytes boff m h bytes' m' h',
    (Z.to_nat len ≤ n)%nat → mem_wf m →
    0 ≤ addr → 0 ≤ len → addr + len < 2 ^ 64 →
    0 ≤ boff → boff + len ≤ Z.of_nat (length bytes) →
    load_store_loop addr len bytes boff true m h = (Ok true, bytes', m', h') →
    bytes' = bytes ∧ mem_wf m' ∧ sz m' = sz m ∧
    (∀ a, byte_at m' a =
       if decide (addr ≤ a < addr + len)
       then default x00 (bytes !! Z.to_nat (boff + (a - addr)))
       else byte_at m a) ∧
    (∀ a, addr ≤ a < addr + len →
       is_Some (sparse_memory_map m' !! Z.shiftr a PGSHIFT)) ∧
    (∀ ppn, is_Some (sparse_memory_map m !! ppn) →
       is_Some (sparse_memory_map m' !! ppn)).
Proof.
  induction n as [|n IH];
    intros addr len bytes boff m h bytes' m' h' Hn Hwf Ha Hl Hfit Hb Hbuf;
    rewrite load_store_loop_step;
    (destruct (Z_lt_dec 0 len) as [Hpos|Hzero];
     [|intros [= <- <- <-]; repeat split; try done;
       [intros a; case_decide; [lia|done] | intros a ?; lia]]).
  { lia. }
  destruct (contents addr m h) as [[[p|e] m1] h1] eqn:Hc; [|discriminate].
  cbv zeta. destruct (chunk_bounds addr len Hpos) as (Hc1 & Hc2 & Hc3).
  set (c := chunk addr len) in *.
  rewrite (wrap64_small (addr + c)), (wrap64_small (len - c))
    by (unfold is_reg; lia).
  pose proof (contents_wf _ _ _ _ _ _ Hc Hwf) as Hwf1.
  destruct (contents_ok_inv _ _ _ _ _ _ Hc) as [-> [page Hpage]].
  destruct (memcpy_to_page_spec addr m1 bytes boff c page)
    as (Hwf2 & Hsz2 & Hba2 & Hpres2); [done|done|lia|lia|lia|].
  intros Hrec.
  apply IH in Hrec as (Hbytes & Hwf' & Hsz' & Hba & Hpres & Hmono);
    [|lia|done|lia..].
  split; [done|]. split; [done|]. split; [|split; [|split]].
  - rewrite Hsz', Hsz2. by eapply contents_sz.
  - intros a. rewrite Hba, Hba2, (contents_byte_at _ _ _ _ _ _ a Hc).
    repeat case_decide; try lia; try done. do 3 f_equal. lia.
  - intros a Hin. destruct (decide (a < addr + c)) as [Hlt|Hge].
    + apply Hmono, Hpres2.
      destruct (page_locality addr a) as [-> _]; [lia|]. by eexists.
    + apply Hpres. lia.
  - intros ppn [pg Hpg]. apply Hmono, Hpres2.
    exists pg. by eapply contents_mono.
Qed.

(** A load whose pages are all allocated neither allocates nor fails. *)
Lemma load_loop_present (n : nat) :
  ∀ addr len bytes boff m h,
    (Z.to_nat len ≤ n)%nat → 0 ≤ addr → addr + len < 2 ^ 64 →
    (∀ a, addr ≤ a < addr + len →
       is_Some (sparse_memory_map m !! Z.shiftr a PGSHIFT)) →
    ∃ bytes', load_store_loop addr len bytes boff false m h =
                (Ok true, bytes', m, h).
Proof.
  induction n as [|n IH]; intros addr len bytes boff m h Hn Ha Hfit Hpres;
    rewrite load_store_loop_step;
    (destruct (Z_lt_dec 0 len) as [Hpos|Hzero]; [|by eexists]).
  { lia. }
  rewrite contents_present by (apply Hpres; lia).
  cbv zeta. destruct (chunk_bounds addr len Hpos) as (Hc1 & Hc2 & Hc3).
  set (c := chunk addr len) in *.
  rewrite (wrap64_small (addr + c)), (wrap64_small (len - c))
    by (unfold is_reg; lia).
  apply IH; [lia..|]. intros a Hin. apply Hpres. lia.
Qed.

(** *** The invariant is kept *)

Lemma mem_t_new_wf size m : mem_t_new size = Ok m → mem_wf m.
Proof.
  unfold mem_t_new. case_match; [discriminate|]. intros [= <-] ppn page.
  cbn [sparse_memory_map]. by rewrite lookup_empty.
Qed.

Lemma memcpy_to_page_wf p bytes boff n m :
  mem_wf m → mem_wf (memcpy_to_page p bytes boff n m).
Proof.
  intros Hwf ppn pg. unfold memcpy_to_page. cbn [sparse_memory_map].
  rewrite lookup_alter_Some. intros [[_ (pg0 & Hpg0 & ->)]|[_ Hpg]].
  - rewrite length_memcpy. by eapply Hwf.
  - by eapply Hwf.
Qed.

Lemma load_store_loop_wf (n : nat) :
  ∀ addr len bytes boff store m h r bytes' m' h',
    (Z.to_nat len ≤ n)%nat → mem_wf m →
    load_store_loop addr len bytes boff store m h = (r, bytes', m', h') →
    mem_wf m'.
Proof.
  induction n as [|n IH];
    intros addr len bytes boff store m h r bytes' m' h' Hn Hwf;
    rewrite load_store_loop_step;
    (destruct (Z_lt_dec 0 len) as [Hpos|Hzero]; [|by intros [= <- <- <- <-]]).
  { lia. }
  pose proof (chunk_decreases addr len Hpos) as Hdec.
  destruct (contents addr m h) as [[[p|e] m1] h1] eqn:Hc; cbv zeta.
  - pose proof (contents_wf _ _ _ _ _ _ Hc Hwf) as Hwf1.
    destruct store; apply IH; try lia; try done.
    by apply memcpy_to_page_wf.
  - intros [= <- <- <- <-]. by eapply contents_wf.
Qed.

Lemma load_store_wf addr len bytes store m h r bytes' m' h' :
  mem_wf m → load_store addr len bytes store m h = (r, bytes', m', h') →
  mem_wf m'.
Proof.
  intros Hwf. unfold load_store. case_match; [by intros [= <- <- <- <-]|].
  by apply (load_store_loop_wf (Z.to_nat len)).
Qed.

(** A load, whatever its outcome, leaves every byte of the device as it
    was. *)
Lemma load_loop_byte_at (n : nat) :
  ∀ addr len bytes boff m h r bytes' m' h',
    (Z.to_nat len ≤ n)%nat →
    load_store_loop addr len bytes boff false m h = (r, bytes', m', h') →
    ∀ a, byte_at m' a = byte_at m a.
Proof.
  induction n as [|n IH];
    intros addr len bytes boff m h r bytes' m' h' Hn;
    rewrite load_store_loop_step;
    (destruct (Z_lt_dec 0 len) as [Hpos|Hzero]; [|by intros [= <- <- <- <-]]).
  { lia. }
  pose proof (chunk_decreases addr len Hpos) as Hdec.
  destruct (contents addr m h) as [[[p|e] m1] h1] eqn:Hc; cbv zeta.
  - intros Hrec a. apply IH with (a := a) in Hrec; [|lia].
    rewrite Hrec. by eapply contents_byte_at.
  - intros [= <- <- <- <-] a. by eapply contents_byte_at.
Qed.

Lemma load_store_load_byte_at addr len bytes m h r bytes' m' h' :
  load_store addr len bytes false m h = (r, bytes', m', h') →
  ∀ a, byte_at m' a = byte_at m a.
Proof.
  unfold load_store. case_match; [by intros [= <- <- <- <-]|].
  by apply (load_loop_byte_at (Z.to_nat len)).
Qed.

(** A device that has only been loaded from holds zero everywhere. *)
Lemma loads_only_zero size m0 m :
  mem_t_new size = Ok m0 → loads_only m0 m →
  mem_wf m ∧ ∀ a, byte_at m a = x00.
Proof.
  intros Hnew. induction 1 as [|m addr len bytes h r bytes' m' h' _ [IHwf IHz] Hload].
  - split; [by eapply mem_t_new_wf|]. intros a.
    unfold mem_t_new in Hnew. case_match; [discriminate|].
    injection Hnew as <-. unfold byte_at. cbn [sparse_memory_map].
    by rewrite lookup_empty.
  - split; [by eapply load_store_wf|].
    intros a. by rewrite (load_store_load_byte_at _ _ _ _ _ _ _ _ _ Hload a).
Qed.

(** *** Loads and stores that succeed *)

Lemma load_store_true_inv addr len bytes store m h bytes' m' h' :
  is_reg addr → is_reg len →
  load_store addr len bytes store m h = (Ok true, bytes', m', h') →
  addr + len < 2 ^ 64 ∧ addr + len ≤ sz m ∧
  load_store_loop addr len bytes 0 store m h = (Ok true, bytes', m', h').
Proof.
  intros Ha Hl. unfold load_store.
  destruct (_ || _) eqn:Hg; [discriminate|].
  destruct (load_store_guard addr len m Ha Hl Hg). done.
Qed.

Lemma load_store_fits addr len bytes store m h :
  is_reg addr → is_reg len → addr + len < 2 ^ 64 → addr + len ≤ sz m →
  load_store addr len bytes store m h =
    load_store_loop addr len bytes 0 store m h.
Proof.
  unfold is_reg, load_store. intros Ha Hl Hfit Hsz.
  rewrite wrap64_small by (unfold is_reg; lia).
  replace (addr + len <? addr) with false by (symmetry; apply Z.ltb_ge; lia).
  replace (addr + len >? sz m) with false; [done|].
  symmetry. rewrite Z.gtb_ltb. apply Z.ltb_ge. lia.
Qed.

(** The buffer after a successful load of [len] bytes into a buffer of
    that length: the bytes of the device. *)
Lemma load_store_load_spec addr len buf m h buf' m' h' :
  mem_wf m → is_reg addr → is_reg len → length buf = Z.to_nat len →
  load_store addr len buf false m h = (Ok true, buf', m', h') →
  buf' = (λ i, byte_at m (addr + i)) <$> seqZ 0 len ∧
  (∀ a, byte_at m' a = byte_at m a) ∧ mem_wf m' ∧ sz m' = sz m.
Proof.
  intros Hwf Ha Hl Hlen Hload.
  destruct (load_store_true_inv _ _ _ _ _ _ _ _ _ Ha Hl Hload) as (Hfit & _ & Hloop).
  unfold is_reg in *.
  apply (load_loop_spec (Z.to_nat len)) in Hloop
    as (Hlen' & Hlk & Hba & Hwf' & Hsz'); [|done|done|lia..].
  split; [|done].
  apply list_eq. intros i. rewrite Hlk, list_lookup_fmap.
  case_decide as Hi.
  - rewrite lookup_seqZ_lt by lia. cbn. do 2 f_equal. lia.
  - rewrite lookup_seqZ_ge by lia. apply lookup_ge_None. lia.
Qed.

(** C3: after a store of the bytes [B] at [(addr, len)] has succeeded, a
    load of the same range succeeds on any heap, allocates nothing, leaves
    the device as it is and returns exactly [B], whatever pages the range
    spans. *)
Theorem store_then_load_roundtrip (m : mem_t) (h : heap_t) (addr : reg_t)
    (len : size_t) (B B' : list byte) (m1 : mem_t) (h1 : heap_t) :
  mem_wf m → is_reg addr → is_reg len → length B = Z.to_nat len →
  load_store addr len B true m h = (Ok true, B', m1, h1) →
  ∀ (buf : list byte) (h2 : heap_t), length buf = Z.to_nat len →
    load_store addr len buf false m1 h2 = (Ok true, B, m1, h2).
Proof.
  intros Hwf Ha Hl HB Hstore buf h2 Hbuf.
  destruct (load_store_true_inv _ _ _ _ _ _ _ _ _ Ha Hl Hstore)
    as (Hfit & Hsz & Hloop).
  pose proof Ha as [Ha0 _]. pose proof Hl as [Hl0 _].
  apply (store_loop_spec (Z.to_nat len)) in Hloop
    as (_ & Hwf1 & Hsz1 & Hba & Hpres & _); [|done|done|lia..].
  destruct (load_loop_present (Z.to_nat len) addr len buf 0 m1 h2)
    as [buf' Hload]; [done|lia|lia|done|].
  rewrite load_store_fits by (done || lia). rewrite Hload. f_equal.
  rewrite <- load_store_fits in Hload by (done || lia).
  apply load_store_load_spec in Hload as [-> _]; [|done..].
  f_equal. f_equal. apply list_eq. intros i. rewrite list_lookup_fmap.
  destruct (decide (Z.of_nat i < len)) as [Hi|Hi].
  - rewrite lookup_seqZ_lt by lia. cbn. rewrite Hba.
    case_decide; [|lia].
    replace (Z.to_nat (0 + (addr + (0 + Z.of_nat i) - addr))) with i by lia.
    symmetry. apply lookup_default_lt. lia.
  - rewrite lookup_seqZ_ge by lia. symmetry. apply lookup_ge_None. lia.
Qed.

(** C4: on a device that has been constructed and since then only loaded
    from, a load that succeeds returns zero bytes only. *)
Theorem fresh_device_reads_zero (size : reg_t) (m0 m : mem_t) (addr : reg_t)
    (len : size_t) (buf : list byte) (h : heap_t) (buf' : list byte)
    (m' : mem_t) (h' : heap_t) :
  mem_t_new size = Ok m0 → loads_only m0 m →
  is_reg addr → is_reg len → length buf = Z.to_nat len →
  load_store addr len buf false m h = (Ok true, buf', m', h') →
  buf' = replicate (Z.to_nat len) x00.
Proof.
  intros Hnew Hloads Ha Hl Hbuf Hload.
  destruct (loads_only_zero _ _ _ Hnew Hloads) as [Hwf Hzero].
  apply load_store_load_spec in Hload as [-> _]; [|done..].
  apply list_eq. intros i. rewrite list_lookup_fmap. unfold is_reg in *.
  destruct (decide (Z.of_nat i < len)) as [Hi|Hi].
  - rewrite lookup_seqZ_lt by lia. cbn. rewrite Hzero.
    symmetry. apply lookup_replicate_2. lia.
  - rewrite lookup_seqZ_ge by lia. symmetry. apply lookup_ge_None.
    rewrite length_replicate. lia.
Qed.

(** C10: a load that succeeds leaves the size of the device and what it
    holds as they were: a read of any range gives the same bytes after the
    load as before it, wherever both reads succeed. *)
Theorem load_preserves_contents (m : mem_t) (h : heap_t) (addr : reg_t)
    (len : size_t) (buf buf' : list byte) (m' : mem_t) (h' : heap_t) :
  mem_wf m → is_reg addr → is_reg len → length buf = Z.to_nat len →
  load_store addr len buf false m h = (Ok true, buf', m', h') →
  sz m' = sz m ∧
  ∀ (a : reg_t) (n : size_t) (out : list byte) (hA hB : heap_t)
    (outA outB : list byte) (mA mB : mem_t) (hA' hB' : heap_t),
    is_reg a → is_reg n → length out = Z.to_nat n →
    load_store a n out false m hA = (Ok true, outA, mA, hA') →
    load_store a n out false m' hB = (Ok true, outB, mB, hB') →
    outA = outB.
Proof.
  intros Hwf Ha Hl Hbuf Hload.
  apply load_store_load_spec in Hload as (_ & Hba & Hwf' & Hsz); [|done..].
  split; [done|].
  intros a n out hA hB outA outB mA mB hA' hB' Han Hn Hout HA HB.
  apply load_store_load_spec in HA as [-> _]; [|done..].
  apply load_store_load_spec in HB as [-> _]; [|done..].
  apply list_fmap_ext. intros i x _. symmetry. apply Hba.
Qed.

(** *** On a heap that never fails, a request in bounds succeeds *)



Lemma mem_2pages_wf : mem_wf mem_2pages.
Proof. intros ppn page. cbn. by rewrite lookup_empty. Qed.

Lemma store_then_load_roundtrip_witness :
  let r := load_store 4090 8 [x01; x02; x03; x04; x05; x06; x07; x08] true
             mem_2pages heap_ok in
  load_store 4090 8 (replicate 8 x00) false r.1.2 heap_ok =
    (Ok true, [x01; x02; x03; x04; x05; x06; x07; x08], r.1.2, heap_ok).
Proof.
  intros r.
  assert (is_reg 4090) as Ha by (unfold is_reg; lia).
  assert (is_reg 8) as Hl by (unfold is_reg; lia).
  assert (r.1.1.1 = Ok true) as Hr by (vm_compute; reflexivity).
  assert (r = (Ok true, r.1.1.2, r.1.2, r.2)) as Hstore.
  { rewrite <- Hr. clearbody r. by destruct r as [[[? ?] ?] ?]. }
  exact (store_then_load_roundtrip mem_2pages heap_ok 4090 8
           [x01; x02; x03; x04; x05; x06; x07; x08] r.1.1.2 r.1.2 r.2
           mem_2pages_wf Ha Hl eq_refl Hstore (replicate 8 x00) heap_ok eq_refl).
Defined.

Lemma fresh_device_reads_zero_witness :
  let r0 := load_store 0 4 (replicate 4 x01) false mem_2pages heap_ok in
  (load_store 4090 8 [x01; x02; x03; x04; x05; x06; x07; x08] false
     r0.1.2 heap_ok).1.1.2 = replicate 8 x00.
Proof.
  intros r0.
  set (r := load_store 4090 8 [x01; x02; x03; x04; x05; x06; x07; x08] false
              r0.1.2 heap_ok).
  assert (is_reg 4090) as Ha by (unfold is_reg; lia).
  assert (is_reg 8) as Hl by (unfold is_reg; lia).
  assert (loads_only mem_2pages r0.1.2) as Hloads.
  { apply (loads_more mem_2pages mem_2pages 0 4 (replicate 4 x01) heap_ok
             r0.1.1.1 r0.1.1.2 r0.1.2 r0.2 (loads_none mem_2pages)).
    change (r0 = (r0.1.1.1, r0.1.1.2, r0.1.2, r0.2)).
    clear r. clearbody r0. by destruct r0 as [[[? ?] ?] ?]. }
  assert (r.1.1.1 = Ok true) as Hr by (vm_compute; reflexivity).
  assert (r = (Ok true, r.1.1.2, r.1.2, r.2)) as Hload.
  { rewrite <- Hr. clearbody r. by destruct r as [[[? ?] ?] ?]. }
  exact (fresh_device_reads_zero 8192 mem_2pages r0.1.2 4090 8
           [x01; x02; x03; x04; x05; x06; x07; x08] heap_ok
           r.1.1.2 r.1.2 r.2 eq_refl Hloads Ha Hl eq_refl Hload).
Defined.

Lemma load_preserves_contents_witness :
  let r := load_store 4090 8 (replicate 8 x00) false mem_2pages heap_ok in
  (load_store 4094 4 (replicate 4 x01) false mem_2pages heap_ok).1.1.2 =
  (load_store 4094 4 (replicate 4 x01) false r.1.2 heap_ok).1.1.2.
Proof.
  intros r.
  set (rA := load_store 4094 4 (replicate 4 x01) false mem_2pages heap_ok).
  set (rB := load_store 4094 4 (replicate 4 x01) false r.1.2 heap_ok).
  assert (is_reg 4090) as Ha by (unfold is_reg; lia).
  assert (is_reg 8) as Hl by (unfold is_reg; lia).
  assert (is_reg 4094) as Ha' by (unfold is_reg; lia).
  assert (is_reg 4) as Hl' by (unfold is_reg; lia).
  assert (r.1.1.1 = Ok true) as Hr by (vm_compute; reflexivity).
  assert (rA.1.1.1 = Ok true) as HrA by (vm_compute; reflexivity).
  assert (rB.1.1.1 = Ok true) as HrB by (vm_compute; reflexivity).
  assert (r = (Ok true, r.1.1.2, r.1.2, r.2)) as Hload.
  { rewrite <- Hr. clearbody r. by destruct r as [[[? ?] ?] ?]. }
  assert (rA = (Ok true, rA.1.1.2, rA.1.2, rA.2)) as HA.
  { rewrite <- HrA. clearbody rA. by destruct rA as [[[? ?] ?] ?]. }
  assert (rB = (Ok true, rB.1.1.2, rB.1.2, rB.2)) as HB.
  { rewrite <- HrB. clearbody rB. by destruct rB as [[[? ?] ?] ?]. }
  exact (proj2 (load_preserves_contents mem_2pages heap_ok 4090 8
                  (replicate 8 x00) r.1.1.2 r.1.2 r.2 mem_2pages_wf Ha Hl
                  eq_refl Hload)
           4094 4 (replicate 4 x01) heap_ok heap_ok rA.1.1.2 rB.1.1.2
           rA.1.2 rB.1.2 rA.2 rB.2 Ha' Hl' eq_refl HA HB).
Defined.

(** ** The plugin registry *)

Section Registry.
Context {H W : Type}.
Implicit Types (D : mmio_plugin_t H W) (map : gmap string (mmio_plugin_t H W)).

Lemma register_mmio_plugin_fresh name D map :
  map !! name = None →
  register_mmio_plugin name D map = (Ok (), <[name := D]> map).
Proof. intros Hn. unfold register_mmio_plugin, emplace. by rewrite Hn. Qed.

Lemma register_mmio_plugin_present name D D' map :
  map !! name = Some D' →
  register_mmio_plugin name D map =
    (Throw (runtime_error ("Plugin " +:+ dquote +:+ name +:+ dquote +:+
                           " already registered!")), map).
Proof. intros Hn. unfold register_mmio_plugin, emplace. by rewrite Hn. Qed.

Lemma register_mmio_plugin_ok_inv name D map map1 :
  register_mmio_plugin name D map = (Ok (), map1) →
  map !! name = None ∧ map1 = <[name := D]> map.
Proof.
  unfold register_mmio_plugin, emplace.
  destruct (map !! name); simpl; intros [= <-]; done.
Qed.

(** C8: once [register_mmio_plugin name D] has succeeded, registering
    [D2] under the same name throws the duplicate-registration error and
    leaves the registry as it was: [name] is still bound to [D], and a
    device constructed for [name] afterwards gets [D] as its plugin. *)
Theorem register_twice_keeps_first name D D2 map map1 :
  register_mmio_plugin name D map = (Ok (), map1) →
  let r := register_mmio_plugin name D2 map1 in
  r.1 = Throw (runtime_error ("Plugin " +:+ dquote +:+ name +:+ dquote +:+
                              " already registered!")) ∧
  r.2 = map1 ∧
  r.2 !! name = Some D ∧
  ∀ args w, ∃ data w',
    mmio_plugin_device_new name args r.2 w =
      (Ok {| plugin := D; user_data := data |}, w').
Proof.
  intros [_ ->]%register_mmio_plugin_ok_inv.
  assert (<[name := D]> map !! name = Some D) as Hl by apply lookup_insert_eq.
  rewrite (register_mmio_plugin_present name D2 D _ Hl). simpl.
  repeat split; [done|].
  intros args w. unfold mmio_plugin_device_new. rewrite Hl.
  destruct (alloc D args w) as [data w']. by exists data, w'.
Qed.

(** C5, as the constructor behaves: for a registered name whose plugin's
    [alloc] returns the null pointer, construction succeeds all the same,
    and the adapter keeps the null pointer as its user data. *)
Theorem mmio_plugin_device_new_null_handle name args map w D :
  map !! name = Some D →
  (alloc D args w).1 = None →
  mmio_plugin_device_new name args map w =
    (Ok {| plugin := D; user_data := None |}, (alloc D args w).2).
Proof.
  intros Hl Hnull. unfold mmio_plugin_device_new. rewrite Hl.
  destruct (alloc D args w) as [data w']. simpl in *. by subst.
Qed.
End Registry.

Lemma register_twice_keeps_first_witness :
  (register_mmio_plugin "dup" null_plugin (<["dup" := file_plugin]> ∅)).2
    !! "dup" = Some file_plugin.
Proof.
  exact (proj1 (proj2 (proj2
    (register_twice_keeps_first "dup" file_plugin null_plugin ∅
       (<["dup" := file_plugin]> ∅) eq_refl)))).
Defined.

Lemma mmio_plugin_device_new_null_handle_witness :
  mmio_plugin_device_new "file" "x:foo" registry_start (os_start env_ok) =
    (Ok {| plugin := file_plugin; user_data := None |}, os_start env_ok).
Proof.
  exact (mmio_plugin_device_new_null_handle "file" "x:foo" registry_start
           (os_start env_ok) file_plugin eq_refl eq_refl).
Defined.

(** C5 as the specification words it fails: ["file"] is registered, the
    file plugin's [alloc] rejects the flag [x] and returns the null
    pointer, and yet the constructor returns an adapter, which holds that
    null pointer. *)
Lemma mmio_plugin_device_new_alloc_failure_counterexample :
  registry_start !! "file" = Some file_plugin ∧
  (alloc file_plugin "x:foo" (os_start env_ok)).1 = None ∧
  ¬ (∃ e, (mmio_plugin_device_new "file" "x:foo" registry_start
             (os_start env_ok)).1 = Throw e).
Proof.
  split; [reflexivity|]. split; [reflexivity|].
  intros [e He].
  assert ((mmio_plugin_device_new "file" "x:foo" registry_start
             (os_start env_ok)).1
          = Ok {| plugin := file_plugin; user_data := None |}) as Hok
    by reflexivity.
  rewrite Hok in He. discriminate He.
Qed.

(** ** The file plugin's [alloc] *)

(** With a failing [mmap] and every other call succeeding, [alloc] returns
    a handle built from [MAP_FAILED]: the test against [NULL] does not see
    the failure. *)
Lemma file_plugin_alloc_mmap_failed args filename writable os :
  parse_args args = Some (filename, writable) →
  let fd := sys_open (env os) filename writable in
  let length := wrap64 (sys_lseek_end (env os) fd) in
  0 ≤ fd → sys_lseek_end (env os) fd ≠ 0 →
  sys_mmap (env os) length writable fd = MAP_FAILED →
  sys_close (env os) fd = 0 → sys_malloc (env os) = true →
  (file_plugin_alloc args os).1 =
    Some {| data_fd := fd; data_addr := MAP_FAILED; data_length := length;
            data_writable := writable |}.
Proof.
  intros Hparse fd length Hfd Hlen Hmap Hclose Hmalloc.
  unfold file_plugin_alloc, os_open, os_lseek_end, os_mmap, os_close.
  rewrite Hparse. fold fd.
  destruct (Z.ltb_spec fd 0) as [|_]; [lia|]. cbn [env].
  destruct (Z.eqb_spec (sys_lseek_end (env os) fd) 0) as [|_]; [done|].
  fold length. rewrite Hmap, Z.eqb_refl. cbn [env].
  change (MAP_FAILED =? NULL) with false. cbv iota.
  by rewrite Hclose, Hmalloc.
Qed.

(** With [close] reporting an error after a successful [mmap], [alloc]
    returns the null pointer and the mapping is still established. *)
Lemma file_plugin_alloc_close_failed args filename writable os :
  parse_args args = Some (filename, writable) →
  let fd := sys_open (env os) filename writable in
  let length := wrap64 (sys_lseek_end (env os) fd) in
  let addr := sys_mmap (env os) length writable fd in
  0 ≤ fd → sys_lseek_end (env os) fd ≠ 0 →
  addr ≠ MAP_FAILED → addr ≠ NULL → sys_close (env os) fd ≠ 0 →
  (file_plugin_alloc args os).1 = None ∧
  is_Some (mappings (file_plugin_alloc args os).2 !! addr).
Proof.
  intros Hparse fd length addr Hfd Hlen Hmap Hnull Hclose.
  unfold file_plugin_alloc, os_open, os_lseek_end, os_mmap, os_close.
  rewrite Hparse. fold fd.
  destruct (Z.ltb_spec fd 0) as [|_]; [lia|]. cbn [env].
  destruct (Z.eqb_spec (sys_lseek_end (env os) fd) 0) as [|_]; [done|].
  fold length. fold addr.
  destruct (Z.eqb_spec addr MAP_FAILED) as [|_]; [done|].
  destruct (Z.eqb_spec addr NULL) as [|_]; [done|]. cbn [env].
  destruct (Z.eqb_spec (sys_close (env os) fd) 0) as [|_]; [done|].
  cbn. split; [done|]. by rewrite lookup_insert_eq.
Qed.

(** On every other path that returns the null pointer the process holds
    what it held before: when [close] does not fail, a failed [alloc]
    leaves no descriptor and no mapping behind.  [open] is taken to answer
    a descriptor that is not open yet, and [mmap] an address that is not
    null and not mapped yet. *)
Lemma file_plugin_alloc_failure_releases args os os' :
  file_plugin_alloc args os = (None, os') →
  (∀ fd, sys_close (env os) fd = 0) →
  (∀ f w, sys_open (env os) f w ∉ open_fds os) →
  (∀ l w fd, sys_mmap (env os) l w fd ≠ NULL ∧
             mappings os !! sys_mmap (env os) l w fd = None) →
  open_fds os' = open_fds os ∧ mappings os' = mappings os.
Proof.
  intros Halloc Hclose Hopen Hmmap. revert Halloc.
  unfold file_plugin_alloc, os_open, os_lseek_end, os_mmap, os_close, os_munmap.
  destruct (parse_args args) as [[filename writable]|]; [|by intros [= <-]].
  specialize (Hopen filename writable).
  set (fd := sys_open (env os) filename writable) in *.
  destruct (Z.ltb_spec fd 0) as [|_]; [by intros [= <-]|]. cbn [env].
  assert (({[fd]} ∪ open_fds os) ∖ {[fd]} = open_fds os) as Hfds
    by (apply set_eq; intros x; rewrite elem_of_difference, elem_of_union,
          elem_of_singleton; split; [tauto|]; intros ?; split; [tauto|congruence]).
  destruct (Z.eqb_spec (sys_lseek_end (env os) fd) 0) as [|_].
  { intros [= <-]. cbn [open_fds mappings]. by rewrite Hfds. }
  set (length := wrap64 (sys_lseek_end (env os) fd)).
  specialize (Hmmap length writable fd) as [Hnonnull Hfresh].
  set (addr := sys_mmap (env os) length writable fd) in *.
  destruct (Z.eqb_spec addr NULL) as [|_]; [done|].
  destruct (Z.eqb_spec addr MAP_FAILED) as [|_]; cbn [env open_fds mappings];
    rewrite Hclose; cbn -[wrap64].
  - destruct (sys_malloc (env os)); [discriminate|].
    intros [= <-]. cbn [open_fds mappings]. rewrite Hfds.
    split; [done|]. by apply delete_id.
  - destruct (sys_malloc (env os)); [discriminate|].
    intros [= <-]. cbn [open_fds mappings]. rewrite Hfds.
    split; [done|]. rewrite delete_insert_eq. by apply delete_id.
Qed.

(** C6, at the input where the source departs from it: [open], [lseek] and
    [mmap] succeed and [close] reports an error.  [alloc] returns the null
    pointer, the descriptor is gone, and the mapping it established is
    still in place. *)
Theorem file_plugin_alloc_close_failure_keeps_mapping :
  let os := os_start env_close_fails in
  let r := file_plugin_alloc "/tmp/x" os in
  mappings os = ∅ ∧
  r.1 = None ∧
  mappings r.2 !! sys_mmap env_close_fails 16 false 3
    = Some (replicate 16 x00) ∧
  bool_decide (3 ∈ open_fds r.2) = false.
Proof. vm_compute. done. Qed.

(** C7, at the input where the source departs from it: [mmap] answers
    [MAP_FAILED] and every other call succeeds.  [alloc] does not return
    the null pointer: it returns a handle whose address is [MAP_FAILED]. *)
Theorem file_plugin_alloc_mmap_failure_returns_handle :
  let os := os_start env_mmap_fails in
  sys_mmap (env os) 16 false 3 = MAP_FAILED ∧
  (file_plugin_alloc "/tmp/x" os).1 =
    Some {| data_fd := 3; data_addr := MAP_FAILED; data_length := 16;
            data_writable := false |} ∧
  mappings (file_plugin_alloc "/tmp/x" os).2 = ∅.
Proof. vm_compute. done. Qed.

(** ** The bus: floor lookup *)

Section BusProofs.
Context {W : Type}.
Implicit Types (devices : bus_t W) (d dev : abstract_device_t W).

Lemma ordered_cons_inv k d devices :
  ordered ((k, d) :: devices) →
  ordered devices ∧ ∀ k' d', (k', d') ∈ devices → k < k'.
Proof.
  intros Hs. apply StronglySorted_inv in Hs as [Hs Hall]. split; [done|].
  intros k' d' Hin. rewrite Forall_forall in Hall. apply Hall.
  apply list_elem_of_fmap. by exists (k', d').
Qed.

Lemma ordered_cons k d devices :
  ordered devices → (∀ k' d', (k', d') ∈ devices → k < k') →
  ordered ((k, d) :: devices).
Proof.
  intros Hs Hall. constructor; [done|].
  apply Forall_forall. intros k' Hin.
  apply list_elem_of_fmap in Hin as [[k'' d'] [-> Hin]]. by eapply Hall.
Qed.

Lemma elem_of_map_assign addr dev devices k d :
  ordered devices →
  (k, d) ∈ map_assign addr dev devices ↔
    (k = addr ∧ d = dev) ∨ (k ≠ addr ∧ (k, d) ∈ devices).
Proof.
  induction devices as [|[k0 d0] rest IH]; intros Hs; simpl.
  - rewrite list_elem_of_singleton. split.
    + intros [= -> ->]. by left.
    + intros [[-> ->]|[_ Hin]]; [done|]. by apply elem_of_nil in Hin.
  - apply ordered_cons_inv in Hs as [Hs Hlt].
    destruct (Z.ltb_spec addr k0) as [Hlt0|Hge].
    + rewrite !elem_of_cons. split.
      * intros [[= -> ->]|[[= -> ->]|Hin]]; [by left|right..].
        -- split; [lia|by left].
        -- split; [|by right]. apply Hlt in Hin. lia.
      * intros [[-> ->]|[Hne [[= -> ->]|Hin]]]; auto.
    + destruct (Z.eqb_spec addr k0) as [->|Hne0].
      * rewrite !elem_of_cons. split.
        -- intros [[= -> ->]|Hin]; [by left|right].
           split; [|by right]. apply Hlt in Hin. lia.
        -- intros [[-> ->]|[Hne [[= -> ->]|Hin]]]; auto. done.
      * rewrite !elem_of_cons, (IH Hs). split.
        -- intros [[= -> ->]|[[-> ->]|[Hne Hin]]]; [right|by left|right]; auto.
        -- intros [[-> ->]|[Hne [[= -> ->]|Hin]]]; auto.
    Qed.

Lemma map_assign_ordered addr dev devices :
  ordered devices → ordered (map_assign addr dev devices).
Proof.
  induction devices as [|[k0 d0] rest IH]; intros Hs; simpl.
  - apply ordered_cons; [constructor|]. intros ?? Hin. by apply elem_of_nil in Hin.
  - pose proof Hs as [Hs' Hlt]%ordered_cons_inv.
    destruct (Z.ltb_spec addr k0) as [Hlt0|Hge].
    + apply ordered_cons; [done|]. intros k' d' [[= -> ->]|Hin]%elem_of_cons; [done|].
      apply Hlt in Hin. lia.
    + destruct (Z.eqb_spec addr k0) as [->|Hne0].
      * by apply ordered_cons.
      * apply ordered_cons; [by apply IH|].
        intros k' d' Hin. apply elem_of_map_assign in Hin; [|done].
        destruct Hin as [[-> ->]|[_ Hin]]; [lia|by eapply Hlt].
Qed.

Lemma bus_of_acc_spec (bindings : list (reg_t * abstract_device_t W)) acc :
  ordered acc → NoDup bindings.*1 →
  (∀ k d, (k, d) ∈ acc → k ∉ bindings.*1) →
  let bus := foldl (λ devices b, add_device b.1 b.2 devices) acc bindings in
  ordered bus ∧
  ∀ k d, (k, d) ∈ bus ↔ (k, d) ∈ acc ∨ (k, d) ∈ bindings.
Proof.
  revert acc. induction bindings as [|[k0 d0] rest IH]; intros acc Hs Hnd Hdis; simpl.
  - split; [done|]. intros k d. rewrite elem_of_nil. tauto.
  - apply NoDup_cons in Hnd as [Hk0 Hnd]. unfold add_device at 2 4. simpl.
    destruct (IH (map_assign k0 d0 acc)) as [Hord Hel].
    + by apply map_assign_ordered.
    + done.
    + intros k d Hin. apply elem_of_map_assign in Hin; [|done].
      destruct Hin as [[-> ->]|[Hne Hin]]; [done|].
      apply Hdis in Hin. simpl in Hin.
      by apply not_elem_of_cons in Hin as [_ ?].
    + split; [done|]. intros k d. rewrite Hel, elem_of_map_assign by done.
      rewrite elem_of_cons. split.
      * intros [[[-> ->]|[_ Hin]]|Hin]; auto.
      * intros [Hin|[[= -> ->]|Hin]]; auto.
        left. right. split; [|done]. apply Hdis in Hin. simpl in Hin.
        by apply not_elem_of_cons in Hin as [? _].
Qed.

Lemma bus_of_spec (bindings : list (reg_t * abstract_device_t W)) :
  NoDup bindings.*1 →
  ordered (bus_of bindings) ∧
  ∀ k d, (k, d) ∈ bus_of bindings ↔ (k, d) ∈ bindings.
Proof.
  intros Hnd. destruct (bus_of_acc_spec bindings [] ) as [Ho He].
  - constructor.
  - done.
  - intros ?? Hin. by apply elem_of_nil in Hin.
  - split; [done|]. intros k d. rewrite (He k d), elem_of_nil. tauto.
Qed.

(** When [upper_bound] answers [begin()], every key is above [addr]. *)
Lemma upper_bound_begin addr devices :
  ordered devices → upper_bound addr devices = 0%nat →
  ∀ k d, (k, d) ∈ devices → addr < k.
Proof.
  destruct devices as [|[k0 d0] rest]; simpl; intros Hs Hub k d Hin.
  - by apply elem_of_nil in Hin.
  - destruct (Z.ltb_spec addr k0); [|done].
    apply ordered_cons_inv in Hs as [_ Hlt].
    apply elem_of_cons in Hin as [[= -> ->]|Hin]; [done|].
    apply Hlt in Hin. lia.
Qed.

(** Stepping back from [upper_bound] lands on the entry with the
    greatest key not above [addr]. *)
Lemma upper_bound_pred addr devices b d :
  ordered devices → (b, d) ∈ devices → b ≤ addr →
  (∀ b' d', (b', d') ∈ devices → b' ≤ addr → b' ≤ b) →
  upper_bound addr devices ≠ 0%nat ∧
  devices !! pred (upper_bound addr devices) = Some (b, d).
Proof.
  induction devices as [|[k0 d0] rest IH]; intros Hs Hin Hle Hmax.
  - by apply elem_of_nil in Hin.
  - pose proof Hs as [Hs' Hlt]%ordered_cons_inv. simpl.
    destruct (Z.ltb_spec addr k0) as [Hlt0|Hge].
    + apply elem_of_cons in Hin as [[= -> ->]|Hin]; [lia|].
      apply Hlt in Hin. lia.
    + split; [done|]. simpl.
      destruct (upper_bound addr rest) as [|n] eqn:Hub.
      * simpl. apply elem_of_cons in Hin as [[= -> ->]|Hin]; [done|].
        eapply upper_bound_begin in Hin; [|done..]. lia.
      * apply elem_of_cons in Hin as [[= -> ->]|Hin].
        -- destruct rest as [|[k1 d1] rest']; [done|]. simpl in Hub.
           destruct (Z.ltb_spec addr k1) as [|Hge1]; [done|].
           assert (k1 ≤ k0) by (apply (Hmax k1 d1); [right; left|done]).
           assert (k0 < k1) by (apply (Hlt k1 d1); left). lia.
        -- destruct (IH Hs' Hin Hle) as [_ IH'].
           { intros b' d' Hin'. apply (Hmax b' d'). by right. }
           exact IH'.
Qed.

Lemma upper_bound_none addr devices :
  (∀ k d, (k, d) ∈ devices → addr < k) →
  empty devices || (upper_bound addr devices =? 0)%nat = true.
Proof.
  destruct devices as [|[k0 d0] rest]; [done|]. intros Hall. simpl.
  destruct (Z.ltb_spec addr k0) as [|Hge]; [done|].
  specialize (Hall k0 d0 ltac:(left)). lia.
Qed.

(** C1: on a bus built by binding devices at distinct bases, a load or
    store at [a] is the load or store of the device bound at the
    greatest base [b ≤ a], called with offset [a - b], and its result is
    returned as it is; when no base is [≤ a] (in particular on the empty
    bus) the call returns false, and a load leaves buffer and state
    untouched. *)
Theorem bus_routes_to_floor_device
    (bindings : list (reg_t * abstract_device_t W)) (a : reg_t)
    (len : size_t) (bytes : list byte) (w : W) :
  NoDup bindings.*1 → Forall (λ b, is_reg b.1) bindings → is_reg a →
  (∀ b d, (b, d) ∈ bindings → b ≤ a →
     (∀ b' d', (b', d') ∈ bindings → b' ≤ a → b' ≤ b) →
     bus_load (bus_of bindings) a len bytes w = dev_load d (a - b) len bytes w ∧
     bus_store (bus_of bindings) a len bytes w = dev_store d (a - b) len bytes w) ∧
  ((∀ b d, (b, d) ∈ bindings → a < b) →
     bus_load (bus_of bindings) a len bytes w = (Ok false, bytes, w) ∧
     bus_store (bus_of bindings) a len bytes w = (Ok false, w)).
Proof.
  intros Hnd Hreg Ha. destruct (bus_of_spec bindings Hnd) as [Hord Hel]. split.
  - intros b d Hin Hle Hmax.
    assert (is_reg b) as Hb.
    { rewrite Forall_forall in Hreg. apply (Hreg (b, d)). done. }
    destruct (upper_bound_pred a (bus_of bindings) b d) as [Hne Hlk].
    + done.
    + by apply Hel.
    + done.
    + intros b' d' Hin'. apply (Hmax b' d'). by apply Hel.
    + unfold bus_load, bus_store. rewrite Hlk.
      assert (empty (bus_of bindings) = false) as ->.
      { destruct (bus_of bindings); [done|done]. }
      assert ((upper_bound a (bus_of bindings) =? 0)%nat = false) as ->
        by by apply Nat.eqb_neq.
      simpl. rewrite wrap64_small; [done|]. unfold is_reg in *. lia.
  - intros Hall. unfold bus_load, bus_store.
    rewrite upper_bound_none; [done|].
    intros k d Hin. apply (Hall k d). by apply Hel.
Qed.
End BusProofs.

Lemma bus_routes_to_floor_device_witness :
  bus_load (bus_of bindings_ab) 5376 4 [x00; x00; x00; x00] [] =
    (Ok true, [x00; x00; x00; x00], [(1%nat, 1280)]) ∧
  bus_load (bus_of bindings_ab) 1280 4 [x00; x00; x00; x00] [] =
    (Ok false, [x00; x00; x00; x00], []).
Proof.
  assert (NoDup bindings_ab.*1) as Hnd.
  { simpl. apply NoDup_cons. split; [|apply NoDup_singleton].
    intros Hx%list_elem_of_singleton. discriminate Hx. }
  assert (Forall (λ b : reg_t * abstract_device_t (list (nat * Z)), is_reg b.1)
            bindings_ab) as Hreg.
  { repeat constructor; simpl; lia. }
  split.
  - assert (is_reg 5376) as Ha by (unfold is_reg; lia).
    destruct (bus_routes_to_floor_device bindings_ab 5376 4
                [x00; x00; x00; x00] [] Hnd Hreg Ha) as [Hroute _].
    destruct (Hroute 4096 (probe 1)) as [Hl _].
    + right. left.
    + lia.
    + intros b' d' Hin Hle.
      apply elem_of_cons in Hin as [[= -> ->]|Hin]; [lia|].
      apply list_elem_of_singleton in Hin as [= -> ->]. lia.
    + exact Hl.
  - assert (is_reg 1280) as Ha by (unfold is_reg; lia).
    destruct (bus_routes_to_floor_device bindings_ab 1280 4
                [x00; x00; x00; x00] [] Hnd Hreg Ha) as [_ Hnone].
    destruct Hnone as [Hl _]; [|exact Hl].
    intros b d Hin.
    apply elem_of_cons in Hin as [[= -> ->]|Hin]; [lia|].
    apply list_elem_of_singleton in Hin as [= -> ->]. lia.
Defined.

(** * Further properties of the code *)

(** ** The bus: binding and introspection *)

Section BusMore.
Context {W : Type}.
Implicit Types (devices : bus_t W) (d dev : abstract_device_t W).

(** The ordered-map invariant holds for every bus built with
    [add_device], also when a base is bound more than once. *)
Lemma bus_of_ordered (bindings : list (reg_t * abstract_device_t W)) :
  ordered (bus_of bindings).
Proof.
  unfold bus_of.
  assert (∀ acc : bus_t W, ordered acc →
            ordered (foldl (λ devices b, add_device b.1 b.2 devices) acc bindings))
    as Hgen.
  { induction bindings as [|[k0 d0] rest IH]; intros acc Hacc; simpl; [done|].
    apply IH. by apply map_assign_ordered. }
  apply Hgen. constructor.
Qed.

(** When [upper_bound] is past [begin()], the entry before it is a floor
    of [addr]. *)
Lemma upper_bound_floor addr devices n :
  ordered devices → upper_bound addr devices = S n →
  ∃ (b : reg_t) d, devices !! n = Some (b, d) ∧ b ≤ addr ∧
         ∀ b' d', (b', d') ∈ devices → b' ≤ addr → b' ≤ b.
Proof.
  revert n. induction devices as [|[k0 d0] rest IH]; intros n Hs Hub; [done|].
  pose proof Hs as [Hs' Hlt]%ordered_cons_inv. simpl in Hub.
  destruct (Z.ltb_spec addr k0) as [|Hge]; [done|]. injection Hub as Hub.
  destruct n as [|n].
  - exists k0, d0. split; [done|]. split; [done|].
    intros b' d' [[= -> ->]|Hin]%elem_of_cons Hle; [lia|].
    pose proof (upper_bound_begin addr rest Hs' Hub b' d' Hin). lia.
  - destruct (IH n Hs' Hub) as (b & d & Hlk & Hle & Hmax).
    exists b, d. split; [done|]. split; [done|].
    intros b' d' [[= -> ->]|Hin]%elem_of_cons Hle'; [|by eapply Hmax].
    apply list_elem_of_lookup_2 in Hlk. apply Hlt in Hlk. lia.
Qed.

(** X1: [find_device] answers the entry with the greatest base not above
    [addr], and the sentinel exactly when every base is above [addr]. *)
Theorem find_device_floor (bindings : list (reg_t * abstract_device_t W))
    (addr : reg_t) :
  (∀ (b : reg_t) d, find_device (bus_of bindings) addr = (b, Some d) ↔
     (b, d) ∈ bus_of bindings ∧ b ≤ addr ∧
     ∀ b' d', (b', d') ∈ bus_of bindings → b' ≤ addr → b' ≤ b) ∧
  (find_device (bus_of bindings) addr = (0, None) ↔
     ∀ b d, (b, d) ∈ bus_of bindings → addr < b).
Proof.
  pose proof (bus_of_ordered bindings) as Hord.
  remember (bus_of bindings) as bus eqn:Hbus. clear Hbus. split.
  - intros b d. split.
    + unfold find_device.
      destruct (upper_bound addr bus) as [|n] eqn:Hub.
      { rewrite orb_true_r. discriminate. }
      destruct (upper_bound_floor addr bus n Hord Hub) as (b0 & d0 & Hlk & Hle & Hmax).
      destruct (empty bus); [discriminate|]. cbn [orb Nat.eqb pred]. rewrite Hlk.
      intros [= <- <-]. split; [by eapply list_elem_of_lookup_2|done].
    + intros (Hin & Hle & Hmax).
      destruct (upper_bound_pred addr bus b d Hord Hin Hle Hmax) as [Hne Hlk].
      unfold find_device, reg_t in *. rewrite Hlk.
      destruct bus; [by apply elem_of_nil in Hin|].
      apply Nat.eqb_neq in Hne. by rewrite Hne.
  - split.
    + unfold find_device. intros Hfd.
      destruct (upper_bound addr bus) as [|n] eqn:Hub.
      { by apply upper_bound_begin. }
      destruct (upper_bound_floor addr bus n Hord Hub) as (b0 & d0 & Hlk & _).
      destruct (empty bus) eqn:He; [by destruct bus|].
      cbn [orb Nat.eqb pred] in Hfd. by rewrite Hlk in Hfd.
    + intros Hall. unfold find_device. by rewrite upper_bound_none.
Qed.

(** X2: Rebinding: after [add_device addr dev], whatever was bound before,
    [addr] is bound to [dev] and to nothing else, [find_device] answers
    [dev], and a load or store at [addr] is [dev]'s with offset 0. *)
Theorem add_device_rebinds (bindings : list (reg_t * abstract_device_t W))
    (addr : reg_t) dev (len : size_t) (bytes : list byte) (w : W) :
  let bus := add_device addr dev (bus_of bindings) in
  (∀ d, (addr, d) ∈ bus ↔ d = dev) ∧
  find_device bus addr = (addr, Some dev) ∧
  bus_load bus addr len bytes w = dev_load dev 0 len bytes w ∧
  bus_store bus addr len bytes w = dev_store dev 0 len bytes w.
Proof.
  intros bus. pose proof (bus_of_ordered bindings) as Hord0.
  assert (ordered bus) as Hord by by apply map_assign_ordered.
  assert (∀ d, (addr, d) ∈ bus ↔ d = dev) as Hel.
  { intros d. unfold bus, add_device. rewrite elem_of_map_assign by done.
    split; [intros [[_ ->]|[? _]]; done|intros ->; by left]. }
  destruct (upper_bound_pred addr bus addr dev Hord) as [Hne Hlk];
    [by apply Hel|lia|done|].
  apply Nat.eqb_neq in Hne.
  assert (empty bus = false) as He.
  { unfold bus, add_device.
    by destruct (bus_of bindings) as [|[??]?]; simpl; repeat case_match. }
  split; [done|]. unfold find_device, bus_load, bus_store, reg_t in *.
  rewrite He, Hne, Hlk. cbn [orb]. by rewrite Z.sub_diag.
Qed.

(** Binding a device at [base] changes nothing for the addresses below
    [base]. *)
Lemma map_assign_below addr base dev devices :
  addr < base →
  upper_bound addr (map_assign base dev devices) = upper_bound addr devices ∧
  ∀ i, (i < upper_bound addr devices)%nat →
       map_assign base dev devices !! i = devices !! i.
Proof.
  intros Hlt. induction devices as [|[k0 d0] rest [IHub IHlk]]; simpl.
  - destruct (Z.ltb_spec addr base); [|lia]. split; [done|]. intros i Hi. lia.
  - destruct (Z.ltb_spec base k0) as [Hb|Hb]; [|destruct (Z.eqb_spec base k0) as [->|Hne]]; simpl.
    + destruct (Z.ltb_spec addr base); [|lia].
      destruct (Z.ltb_spec addr k0); [|lia]. split; [done|]. intros i Hi. lia.
    + destruct (Z.ltb_spec addr k0); [|lia]. split; [done|]. intros i Hi. lia.
    + destruct (Z.ltb_spec addr k0) as [|Hge].
      * split; [done|]. intros i Hi. lia.
      * rewrite IHub. split; [done|]. intros [|i] Hi; [done|].
        simpl. apply IHlk. lia.
Qed.

(** X3: For every address below [base], [find_device], [load] and [store]
    answer on the bus after [add_device base dev] what they answered
    before. *)
Theorem add_device_below_unchanged devices (base addr : reg_t) dev
    (len : size_t) (bytes : list byte) (w : W) :
  addr < base →
  find_device (add_device base dev devices) addr = find_device devices addr ∧
  bus_load (add_device base dev devices) addr len bytes w =
    bus_load devices addr len bytes w ∧
  bus_store (add_device base dev devices) addr len bytes w =
    bus_store devices addr len bytes w.
Proof.
  intros Hlt. destruct (map_assign_below addr base dev devices Hlt) as [Hub Hlk].
  unfold find_device, bus_load, bus_store, add_device, reg_t in *. rewrite Hub.
  destruct (upper_bound addr devices) as [|n] eqn:Hn.
  - by rewrite !orb_true_r.
  - assert (empty devices = false) as -> by (by destruct devices).
    assert (empty (map_assign base dev devices) = false) as ->
      by (by destruct devices as [|[??]?]; simpl; repeat case_match).
    cbn [orb Nat.eqb pred]. rewrite Hlk by lia. done.
Qed.
End BusMore.

Lemma add_device_below_unchanged_witness :
  bus_load (add_device 12288 (probe 3) (bus_of bindings_ab)) 5376 4
    [x00; x00; x00; x00] [] =
  bus_load (bus_of bindings_ab) 5376 4 [x00; x00; x00; x00] [].
Proof.
  assert (5376 < 12288) as Hlt by lia.
  exact (proj1 (proj2 (add_device_below_unchanged (bus_of bindings_ab) 12288
                         5376 (probe 3) 4 [x00; x00; x00; x00] [] Hlt))).
Defined.

(** ** The sparse memory device: outcomes and effects of [load_store] *)

Lemma contents_heap addr m h r m' h' :
  contents addr m h = (r, m', h') →
  calloc_fails h' = calloc_fails h ∧
  (calloc_count h ≤ calloc_count h')%nat ∧
  ∀ e, r = Throw e →
       e = bad_alloc ∧ calloc_fails h (calloc_count h) = true.
Proof.
  unfold contents, calloc.
  remember (replicate (Z.to_nat (PGSIZE * 1)) x00) as zp eqn:Hzp.
  destruct (sparse_memory_map m !! _); [by intros [= <- <- <-]|].
  destruct (calloc_fails h _) eqn:Hf; intros [= <- <- <-]; cbn;
    (split; [done|split; [lia|]]); [|done].
  by intros e [= <-].
Qed.

Lemma contents_pages addr m h r m' h' ppn :
  contents addr m h = (r, m', h') →
  is_Some (sparse_memory_map m !! ppn) →
  is_Some (sparse_memory_map m' !! ppn).
Proof. intros Hc [pg Hpg]. exists pg. by eapply contents_mono. Qed.

(** Every way the copy loop can end. *)
Lemma load_store_loop_any (n : nat) :
  ∀ addr len bytes boff store m h r bytes' m' h',
    (Z.to_nat len ≤ n)%nat →
    load_store_loop addr len bytes boff store m h = (r, bytes', m', h') →
    (r = Ok true ∨
     r = Throw bad_alloc ∧
       ∃ i, (calloc_count h ≤ i)%nat ∧ calloc_fails h i = true) ∧
    sz m' = sz m ∧
    (∀ ppn, is_Some (sparse_memory_map m !! ppn) →
            is_Some (sparse_memory_map m' !! ppn)) ∧
    length bytes' = length bytes ∧
    (store = true → bytes' = bytes).
Proof.
  induction n as [|n IH];
    intros addr len bytes boff store m h r bytes' m' h' Hn;
    rewrite load_store_loop_step;
    (destruct (Z_lt_dec 0 len) as [Hpos|Hzero];
     [|intros [= <- <- <- <-]; by auto 6]).
  { lia. }
  pose proof (chunk_decreases addr len Hpos) as Hdec.
  destruct (contents addr m h) as [[[p|e] m1] h1] eqn:Hc; cbv zeta.
  - destruct (contents_heap _ _ _ _ _ _ Hc) as (Hf & Hcnt & _).
    pose proof (contents_sz _ _ _ _ _ _ Hc) as Hsz1.
    destruct store; intros Hrec;
      apply IH in Hrec as (Hr & Hsz & Hmono & Hlen & Hst); try lia.
    + split; [|split; [|split; [|split]]].
      * destruct Hr as [?|[? (i & Hi & Hfi)]]; [by left|right].
        split; [done|]. exists i. rewrite <- Hf. split; [lia|done].
      * by rewrite Hsz.
      * intros ppn Hp. apply Hmono. unfold memcpy_to_page.
        cbn [sparse_memory_map]. apply lookup_alter_is_Some.
        by eapply contents_pages.
      * done.
      * done.
    + split; [|split; [|split; [|split]]].
      * destruct Hr as [?|[? (i & Hi & Hfi)]]; [by left|right].
        split; [done|]. exists i. rewrite <- Hf. split; [lia|done].
      * by rewrite Hsz.
      * intros ppn Hp. apply Hmono. by eapply contents_pages.
      * by rewrite Hlen, length_memcpy.
      * done.
  - intros [= <- <- <- <-].
    destruct (contents_heap _ _ _ _ _ _ Hc) as (_ & _ & He).
    destruct (He e eq_refl) as [-> Hfail].
    split; [right; split; [done|]; by exists (calloc_count h)|].
    split; [by eapply contents_sz|]. split; [|done].
    intros ppn. by eapply contents_pages.
Qed.

(** X4: [load_store] answers false for exactly the requests that are out of
    bounds: those whose end does not fit in 64 bits or lies beyond the
    size of the device. *)
Theorem load_store_false_iff (addr : reg_t) (len : size_t)
    (bytes : list byte) (store : bool) (m : mem_t) (h : heap_t) :
  is_reg addr → is_reg len →
  (load_store addr len bytes store m h).1.1.1 = Ok false ↔
    2 ^ 64 ≤ addr + len ∨ sz m < addr + len.
Proof.
  intros Ha Hl. split.
  - unfold load_store. destruct (_ || _) eqn:Hg.
    + intros _. apply orb_true_iff in Hg as [Hg|Hg]; unfold is_reg in *.
      * apply Z.ltb_lt in Hg.
        destruct (Z_lt_le_dec (addr + len) (2 ^ 64)); [|by left].
        rewrite wrap64_small in Hg by (unfold is_reg; lia). lia.
      * rewrite Z.gtb_ltb in Hg. apply Z.ltb_lt in Hg.
        destruct (Z_lt_le_dec (addr + len) (2 ^ 64)); [|by left].
        rewrite wrap64_small in Hg by (unfold is_reg; lia). by right.
    + destruct (load_store_loop addr len bytes 0 store m h)
        as [[[r bytes'] m'] h'] eqn:Hloop.
      apply (load_store_loop_any (Z.to_nat len)) in Hloop; [|lia].
      destruct Hloop as ([->|[-> _]] & _); discriminate.
  - intros Hbad. unfold load_store, is_reg in *.
    destruct (Z_lt_le_dec (addr + len) (2 ^ 64)) as [Hfit|Hover].
    + rewrite wrap64_small by (unfold is_reg; lia).
      destruct Hbad as [?|Hsz]; [lia|].
      replace (addr + len >? sz m) with true by (symmetry; apply Z.gtb_lt; lia).
      by rewrite orb_true_r.
    + rewrite wrap64_overflow by lia.
      replace (addr + len - 2 ^ 64 <? addr) with true
        by (symmetry; apply Z.ltb_lt; lia).
      done.
Qed.

Lemma load_store_false_iff_witness :
  (load_store 8190 4 [x01; x02; x03; x04] false mem_2pages heap_ok).1.1.1
    = Ok false.
Proof.
  assert (is_reg 8190) as Ha by (unfold is_reg; lia).
  assert (is_reg 4) as Hl by (unfold is_reg; lia).
  apply (proj2 (load_store_false_iff 8190 4 [x01; x02; x03; x04] false
                  mem_2pages heap_ok Ha Hl)).
  right. simpl. lia.
Defined.


(** X7: Whatever its outcome, [load_store] keeps the size of the device and
    the page invariant, never frees a page, keeps the length of the
    buffer, and as a store leaves the buffer as it is. *)
Theorem load_store_keeps_device (addr : reg_t) (len : size_t)
    (bytes : list byte) (store : bool) (m : mem_t) (h : heap_t)
    (r : result bool) (bytes' : list byte) (m' : mem_t) (h' : heap_t) :
  mem_wf m →
  load_store addr len bytes store m h = (r, bytes', m', h') →
  mem_wf m' ∧ sz m' = sz m ∧
  (∀ ppn, is_Some (sparse_memory_map m !! ppn) →
          is_Some (sparse_memory_map m' !! ppn)) ∧
  length bytes' = length bytes ∧
  (store = true → bytes' = bytes).
Proof.
  intros Hwf Hls. split; [by eapply load_store_wf|].
  revert Hls. unfold load_store. case_match; [by intros [= <- <- <- <-]|].
  intros Hloop.
  apply (load_store_loop_any (Z.to_nat len)) in Hloop; [|lia].
  by destruct Hloop as (_ & ? & ? & ? & ?).
Qed.

(** X8: A request of length zero at an address up to the size of the device
    succeeds and touches nothing: no page is allocated for it. *)
Theorem load_store_zero_length (addr : reg_t) (bytes : list byte)
    (store : bool) (m : mem_t) (h : heap_t) :
  is_reg addr → addr ≤ sz m →
  load_store addr 0 bytes store m h = (Ok true, bytes, m, h).
Proof.
  intros Ha Hsz. unfold load_store. rewrite Z.add_0_r, wrap64_small by done.
  replace (addr <? addr) with false by (symmetry; apply Z.ltb_ge; lia).
  replace (addr >? sz m) with false
    by (symmetry; rewrite Z.gtb_ltb; apply Z.ltb_ge; lia).
  cbn [orb]. rewrite load_store_loop_step.
  destruct (Z_lt_dec 0 0); [lia|done].
Qed.

(** What a successful store leaves in the device. *)
Lemma load_store_store_spec addr len B m h B' m' h' :
  mem_wf m → is_reg addr → is_reg len →
  len ≤ Z.of_nat (length B) →
  load_store addr len B true m h = (Ok true, B', m', h') →
  mem_wf m' ∧ sz m' = sz m ∧
  ∀ a, byte_at m' a =
       if decide (addr ≤ a < addr + len)
       then default x00 (B !! Z.to_nat (a - addr))
       else byte_at m a.
Proof.
  intros Hwf Ha Hl HB Hstore.
  destruct (load_store_true_inv _ _ _ _ _ _ _ _ _ Ha Hl Hstore)
    as (Hfit & _ & Hloop). unfold is_reg in *.
  apply (store_loop_spec (Z.to_nat len)) in Hloop
    as (_ & Hwf' & Hsz' & Hba & _); [|done|done|lia..].
  split; [done|]. split; [done|]. intros a. rewrite Hba.
  case_decide; [|done]. by rewrite Z.add_0_l.
Qed.

(** X9: After a successful store of [B] at [(addr, len)], a load of any range
    returns, at each position, the stored byte where the position falls
    in the stored range and the byte a load returned before the store
    elsewhere: a store changes the bytes of its range and no other. *)
Theorem store_changes_its_range_only (m : mem_t) (h : heap_t) (addr : reg_t)
    (len : size_t) (B B' : list byte) (m' : mem_t) (h' : heap_t) :
  mem_wf m → is_reg addr → is_reg len → length B = Z.to_nat len →
  load_store addr len B true m h = (Ok true, B', m', h') →
  ∀ (a : reg_t) (n : size_t) (out : list byte) (hA hB : heap_t)
    (outA outB : list byte) (mA mB : mem_t) (hA' hB' : heap_t),
    is_reg a → is_reg n → length out = Z.to_nat n →
    load_store a n out false m hA = (Ok true, outA, mA, hA') →
    load_store a n out false m' hB = (Ok true, outB, mB, hB') →
    length outB = Z.to_nat n ∧
    ∀ i : nat, (i < Z.to_nat n)%nat →
      outB !! i =
        if decide (addr ≤ a + Z.of_nat i < addr + len)
        then B !! Z.to_nat (a + Z.of_nat i - addr)
        else outA !! i.
Proof.
  intros Hwf Ha Hl HB Hstore a n out hA hB outA outB mA mB hA' hB'
    Han Hn Hout HA HB'.
  apply load_store_store_spec in Hstore as (Hwf' & _ & Hba);
    [|first [done | unfold is_reg in *; lia]..].
  apply load_store_load_spec in HA as [-> _]; [|done..].
  apply load_store_load_spec in HB' as [-> _]; [|done..].
  unfold is_reg in *. split; [by rewrite length_fmap, length_seqZ|].
  intros i Hi. rewrite !list_lookup_fmap, lookup_seqZ_lt by lia. cbn.
  rewrite Hba, Z.add_0_l. case_decide; [|done].
  symmetry. apply lookup_default_lt. lia.
Qed.

(** X10: A load writes [len] bytes and no more: in a longer buffer the bytes
    from position [len] on are left as they were. *)
Theorem load_writes_len_bytes (m : mem_t) (h : heap_t) (addr : reg_t)
    (len : size_t) (buf buf' : list byte) (m' : mem_t) (h' : heap_t) :
  mem_wf m → is_reg addr → is_reg len → len ≤ Z.of_nat (length buf) →
  load_store addr len buf false m h = (Ok true, buf', m', h') →
  length buf' = length buf ∧
  drop (Z.to_nat len) buf' = drop (Z.to_nat len) buf.
Proof.
  intros Hwf Ha Hl Hbuf Hload.
  destruct (load_store_true_inv _ _ _ _ _ _ _ _ _ Ha Hl Hload)
    as (Hfit & _ & Hloop). unfold is_reg in *.
  apply (load_loop_spec (Z.to_nat len)) in Hloop
    as (Hlen' & Hlk & _); [|done|done|lia..].
  split; [done|]. apply list_eq. intros i. rewrite !lookup_drop, Hlk.
  case_decide; [lia|done].
Qed.

(** A load that runs to completion leaves every page of its range
    allocated. *)
Lemma load_loop_pages (n : nat) :
  ∀ addr len bytes boff m h bytes' m' h',
    (Z.to_nat len ≤ n)%nat → 0 ≤ addr → addr + len < 2 ^ 64 →
    load_store_loop addr len bytes boff false m h = (Ok true, bytes', m', h') →
    ∀ a, addr ≤ a < addr + len →
         is_Some (sparse_memory_map m' !! Z.shiftr a PGSHIFT).
Proof.
  induction n as [|n IH]; intros addr len bytes boff m h bytes' m' h' Hn Ha Hfit;
    rewrite load_store_loop_step;
    (destruct (Z_lt_dec 0 len) as [Hpos|Hzero]; [|intros _ a ?; lia]).
  { lia. }
  destruct (contents addr m h) as [[[p|e] m1] h1] eqn:Hc; [|discriminate].
  cbv zeta. destruct (chunk_bounds addr len Hpos) as (Hc1 & Hc2 & Hc3).
  set (c := chunk addr len) in *.
  rewrite (wrap64_small (addr + c)), (wrap64_small (len - c))
    by (unfold is_reg; lia).
  destruct (contents_ok_inv _ _ _ _ _ _ Hc) as [_ Hpage].
  intros Hrec a Hin. destruct (decide (a < addr + c)) as [Hlt|Hge].
  - apply (load_store_loop_any n) in Hrec as (_ & _ & Hmono & _); [|lia].
    apply Hmono. destruct (page_locality addr a) as [-> _]; [lia|done].
  - eapply IH in Hrec; [apply Hrec|lia..].
Qed.

(** X11: A load that has succeeded can be repeated: the same request succeeds
    on any heap, allocates nothing, leaves the device as it is and
    returns the same bytes. *)
Theorem load_is_repeatable (m : mem_t) (h : heap_t) (addr : reg_t)
    (len : size_t) (buf buf' : list byte) (m' : mem_t) (h' : heap_t) :
  mem_wf m → is_reg addr → is_reg len → length buf = Z.to_nat len →
  load_store addr len buf false m h = (Ok true, buf', m', h') →
  ∀ (buf2 : list byte) (h2 : heap_t), length buf2 = Z.to_nat len →
    load_store addr len buf2 false m' h2 = (Ok true, buf', m', h2).
Proof.
  intros Hwf Ha Hl Hbuf Hload buf2 h2 Hbuf2.
  destruct (load_store_true_inv _ _ _ _ _ _ _ _ _ Ha Hl Hload)
    as (Hfit & Hsz & Hloop).
  pose proof Ha as [Ha0 _].
  pose proof (load_loop_pages (Z.to_nat len) _ _ _ _ _ _ _ _ _
                (Nat.le_refl _) Ha0 Hfit Hloop) as Hpages.
  apply load_store_load_spec in Hload as (-> & Hba & Hwf' & Hsz'); [|done..].
  destruct (load_loop_present (Z.to_nat len) addr len buf2 0 m' h2)
    as [out Hout]; [lia|lia|lia|done|].
  rewrite load_store_fits by (done || lia). rewrite Hout.
  rewrite <- load_store_fits in Hout by (done || lia).
  apply load_store_load_spec in Hout as [-> _]; [|done..].
  do 3 f_equal. apply list_fmap_ext. intros i x _. apply Hba.
Qed.

(** ** The plugin registry: sequences of registrations *)

Section RegistryMore.
Context {H W : Type}.
Implicit Types (D : mmio_plugin_t H W) (map : gmap string (mmio_plugin_t H W)).

(** X12: After any sequence of registrations on the empty registry, those
    that throw included, each name is bound to the descriptor of its first
    registration: the registry is the map of the sequence in which
    earlier entries win, so a registration that no earlier one shares its
    name with is the one a lookup finds, whatever follows it. *)
Theorem register_all_first_wins (regs : list (string * mmio_plugin_t H W)) :
  register_all regs ∅ = list_to_map regs ∧
  ∀ pre name D post,
    regs = pre ++ (name, D) :: post → name ∉ pre.*1 →
    register_all regs ∅ !! name = Some D.
Proof.
  assert (∀ map, register_all regs map = map ∪ list_to_map regs) as Hgen.
  { induction regs as [|[name D] regs IH]; intros map; simpl.
    - by rewrite (right_id_L ∅ (∪)).
    - unfold register_all in *. simpl. rewrite IH.
      unfold register_mmio_plugin, emplace.
      destruct (map !! name) as [D'|] eqn:Hn; simpl.
      + apply map_eq. intros k. rewrite !lookup_union.
        destruct (decide (k = name)) as [->|Hne].
        * rewrite Hn, lookup_insert_eq. by destruct (list_to_map regs !! name).
        * by rewrite lookup_insert_ne.
      + apply map_eq. intros k. rewrite !lookup_union.
        destruct (decide (k = name)) as [->|Hne].
        * rewrite Hn, !lookup_insert_eq.
          by destruct (list_to_map regs !! name).
        * by rewrite !lookup_insert_ne. }
  assert (register_all regs ∅ = list_to_map regs) as Heq.
  { rewrite Hgen. by rewrite (left_id_L ∅ (∪)). }
  split; [done|]. intros pre name D post -> Hfresh.
  rewrite Heq, list_to_map_app, lookup_union.
  rewrite (not_elem_of_list_to_map_1 _ _ Hfresh). simpl.
  by rewrite lookup_insert_eq.
Qed.
End RegistryMore.

(** ** The file plugin: argument grammar *)

Lemma strchr_app flags c rest :
  strchr flags c = None →
  strchr (flags +:+ String c rest) c = Some (String.length flags).
Proof.
  induction flags as [|a flags IH]; simpl.
  - by rewrite Ascii.eqb_refl.
  - destruct (Ascii.eqb a c); [done|].
    destruct (strchr flags c); [done|]. intros _. by rewrite IH.
Qed.

Lemma substring_prefix s1 s2 :
  substring 0 (String.length s1) (s1 +:+ s2) = s1.
Proof.
  induction s1 as [|a s1 IH]; simpl; [by destruct s2|]. by rewrite IH.
Qed.

Lemma substring_whole s : substring 0 (String.length s) s = s.
Proof. induction s as [|a s IH]; simpl; [done|]. by rewrite IH. Qed.

Lemma substring_suffix s1 c s2 :
  substring (S (String.length s1))
    (String.length (s1 +:+ String c s2) - S (String.length s1))
    (s1 +:+ String c s2) = s2.
Proof.
  induction s1 as [|a s1 IH]; simpl.
  - rewrite Nat.sub_0_r. apply substring_whole.
  - apply IH.
Qed.

Lemma parse_flags_spec flags writable :
  parse_flags flags writable =
    if decide (Forall (eq "w"%char) (list_ascii_of_string flags))
    then Some (writable || negb (String.eqb flags ""))
    else None.
Proof.
  revert writable. induction flags as [|a flags IH]; intros writable;
    cbn [parse_flags list_ascii_of_string].
  - rewrite decide_True by constructor. cbn. by rewrite orb_false_r.
  - destruct (Ascii.eqb_spec a "w") as [->|Hne].
    + rewrite IH. cbn [String.eqb negb orb]. rewrite orb_true_r.
      destruct (decide (Forall (eq "w"%char) (list_ascii_of_string flags)))
        as [Hall|Hnall].
      * rewrite decide_True.
        -- reflexivity.
        -- apply Forall_cons. by split.
      * rewrite decide_False; [done|]. by intros [_ Hall]%Forall_cons_1.
    + rewrite decide_False; [done|]. intros [Heq _]%Forall_cons_1. congruence.
Qed.

(** X13: The argument grammar [[<flags>:]<path>]: with flags (colon-free)
    before the first colon, the path is everything after that colon, the
    device is writable when there is at least one flag, and the arguments
    are rejected unless every flag is [w]; without a colon the whole
    string is the path and the device is read-only. *)
Theorem parse_args_grammar (flags path : string) :
  strchr flags ":"%char = None →
  parse_args (flags +:+ String ":"%char path) =
    (if decide (Forall (eq "w"%char) (list_ascii_of_string flags))
     then Some (path, negb (String.eqb flags ""))
     else None) ∧
  parse_args flags = Some (flags, false).
Proof.
  intros Hnc. unfold parse_args. split.
  - rewrite (strchr_app _ _ _ Hnc), substring_prefix, parse_flags_spec.
    case_decide; [|done]. by rewrite substring_suffix.
  - by rewrite Hnc.
Qed.

Lemma parse_args_grammar_witness :
  parse_args "w:/tmp/x" = Some ("/tmp/x", true) ∧
  parse_args "w" = Some ("w", false).
Proof.
  exact (parse_args_grammar "w" "/tmp/x" eq_refl).
Defined.

(** ** The file plugin: handles and resources *)

(** What [alloc] has done when it returns a handle. *)
Lemma file_plugin_alloc_some_inv args os data os' :
  file_plugin_alloc args os = (Some data, os') →
  ∃ filename writable,
    parse_args args = Some (filename, writable) ∧
    let fd := sys_open (env os) filename writable in
    let length := wrap64 (sys_lseek_end (env os) fd) in
    let addr := sys_mmap (env os) length writable fd in
    data = {| data_fd := fd; data_addr := addr; data_length := length;
              data_writable := writable |} ∧
    0 ≤ fd ∧ sys_lseek_end (env os) fd ≠ 0 ∧ addr ≠ NULL ∧
    sys_close (env os) fd = 0 ∧ sys_malloc (env os) = true ∧
    env os' = env os ∧
    open_fds os' = ({[fd]} ∪ open_fds os) ∖ {[fd]} ∧
    mappings os' =
      if addr =? MAP_FAILED then mappings os
      else <[addr := resize (Z.to_nat length) x00 (sys_file (env os) fd)]>
             (mappings os).
Proof.
  unfold file_plugin_alloc, os_open, os_lseek_end, os_mmap, os_close, os_munmap.
  destruct (parse_args args) as [[filename writable]|]; [|discriminate].
  intros Halloc. exists filename, writable. split; [done|]. revert Halloc.
  set (fd := sys_open (env os) filename writable).
  destruct (Z.ltb_spec fd 0) as [|Hfd]; [discriminate|]. cbn [env].
  destruct (Z.eqb_spec (sys_lseek_end (env os) fd) 0) as [|Hlen]; [discriminate|].
  set (length := wrap64 (sys_lseek_end (env os) fd)).
  set (addr := sys_mmap (env os) length writable fd).
  destruct (Z.eqb_spec addr NULL) as [|Hnull].
  { destruct (addr =? MAP_FAILED); discriminate. }
  destruct (Z.eqb_spec addr MAP_FAILED) as [Hmf|Hmf]; cbn [env open_fds mappings];
    (destruct (Z.eqb_spec (sys_close (env os) fd) 0) as [Hclose|]; [|discriminate]);
    cbn [negb]; (destruct (sys_malloc (env os)) eqn:Hmalloc; [|discriminate]);
    cbn [negb]; intros [= <- <-]; cbn; by repeat split.
Qed.

(** X14: When every call succeeds, [alloc] returns a handle that records the
    descriptor, the address and length of the mapping and the writable
    flag; the descriptor is closed again, and the one thing the process
    holds in addition is the mapping of the file. *)
Theorem file_plugin_alloc_success args filename writable os :
  parse_args args = Some (filename, writable) →
  let fd := sys_open (env os) filename writable in
  let length := wrap64 (sys_lseek_end (env os) fd) in
  let addr := sys_mmap (env os) length writable fd in
  0 ≤ fd → fd ∉ open_fds os → sys_lseek_end (env os) fd ≠ 0 →
  addr ≠ MAP_FAILED → addr ≠ NULL →
  sys_close (env os) fd = 0 → sys_malloc (env os) = true →
  file_plugin_alloc args os =
    (Some {| data_fd := fd; data_addr := addr; data_length := length;
             data_writable := writable |},
     {| env := env os; open_fds := open_fds os;
        mappings := <[addr := resize (Z.to_nat length) x00
                                (sys_file (env os) fd)]> (mappings os) |}).
Proof.
  intros Hparse fd length addr Hfd Hfresh Hlen Hmf Hnull Hclose Hmalloc.
  unfold file_plugin_alloc, os_open, os_lseek_end, os_mmap, os_close.
  rewrite Hparse. fold fd.
  destruct (Z.ltb_spec fd 0) as [|_]; [lia|]. cbn [env].
  destruct (Z.eqb_spec (sys_lseek_end (env os) fd) 0) as [|_]; [done|].
  fold length. fold addr.
  destruct (Z.eqb_spec addr MAP_FAILED) as [|_]; [done|].
  destruct (Z.eqb_spec addr NULL) as [|_]; [done|]. cbn [env open_fds mappings].
  rewrite Hclose, Hmalloc. cbn. do 2 f_equal.
  apply set_eq. intros x.
  rewrite elem_of_difference, elem_of_union, elem_of_singleton.
  split; [intros [[->|?] ?]; done|]. intros Hx. split; [by right|congruence].
Qed.

Lemma file_plugin_alloc_success_witness :
  (file_plugin_alloc "w:/tmp/x" (os_start env_ok)).1 =
    Some {| data_fd := 3; data_addr := 139637976727552; data_length := 16;
            data_writable := true |}.
Proof.
  assert ((3 : Z) ∉ open_fds (os_start env_ok)) as Hfresh.
  { unfold os_start. cbn [open_fds]. set_unfold. lia. }
  assert (0 ≤ 3) as H3 by lia.
  exact (f_equal fst
           (file_plugin_alloc_success "w:/tmp/x" "/tmp/x" true (os_start env_ok)
              eq_refl H3 Hfresh ltac:(discriminate) ltac:(discriminate)
              ltac:(discriminate) eq_refl eq_refl)).
Defined.



(** X16: Through a writable handle whose mapping is in place, a store of
    [width] bytes that lies inside the mapping followed by a load of the
    same range returns the stored bytes. *)
Theorem file_plugin_store_then_load (data : file_plugin_data)
    (offset : reg_t) (width : size_t) (buffer out page : list byte)
    (os : os_t) :
  data_writable data = true →
  mappings os !! data_addr data = Some page →
  0 ≤ offset → 0 ≤ width → offset < data_length data →
  offset + width ≤ Z.of_nat (length page) →
  length buffer = Z.to_nat width → length out = Z.to_nat width →
  let r := file_plugin_store (Some data) offset width buffer os in
  r.1 = true ∧
  file_plugin_load (Some data) offset width out r.2 = (true, buffer, r.2).
Proof.
  intros Hw Hmap Ho Hwd Hlt Hin Hbuf Hout. unfold file_plugin_store.
  rewrite Hw. cbn [negb orb].
  destruct (Z.geb_spec offset (data_length data)) as [|_]; [lia|].
  cbn [fst snd]. split; [done|]. unfold file_plugin_load.
  destruct (Z.geb_spec offset (data_length data)) as [|_]; [lia|].
  f_equal. f_equal. unfold mapped. cbn [mappings].
  rewrite lookup_alter_eq, Hmap. cbn [fmap option_fmap option_map from_option id].
  apply list_eq. intros i.
  rewrite memcpy_lookup; [|lia..| |];
    [|rewrite length_memcpy; lia|rewrite Hout; lia].
  case_decide as Hi.
  - rewrite memcpy_lookup; [|lia..|rewrite Hbuf; lia|lia].
    rewrite decide_True by lia. f_equal. lia.
  - rewrite !lookup_ge_None_2; [done|lia..].
Qed.

Lemma file_plugin_store_then_load_witness :
  let os1 := (file_plugin_alloc "w:/tmp/x" (os_start env_ok)).2 in
  let data := {| data_fd := 3; data_addr := 139637976727552;
                 data_length := 16; data_writable := true |} in
  let r := file_plugin_store (Some data) 0 4 [x01; x02; x03; x04] os1 in
  r.1 = true ∧
  file_plugin_load (Some data) 0 4 [x00; x00; x00; x00] r.2 =
    (true, [x01; x02; x03; x04], r.2).
Proof.
  intros os1 data.
  assert (mappings os1 !! data_addr data = Some (replicate 16 x00)) as Hmap
    by (vm_compute; reflexivity).
  exact (file_plugin_store_then_load data 0 4 [x01; x02; x03; x04]
           [x00; x00; x00; x00] (replicate 16 x00) os1 eq_refl Hmap
           ltac:(lia) ltac:(lia) ltac:(reflexivity) ltac:(simpl; lia)
           eq_refl eq_refl).
Defined.

(** X17: Over its lifetime a file-plugin device leaves the process holding
    what it held before: after construction and destruction the open
    descriptors and the mappings are as before construction, whether
    [alloc] produced a handle or not; and a construction whose [alloc]
    failed has already released everything.  [close] is taken not to
    fail, [open] to answer a descriptor that is not open yet and [mmap] an
    address that is not null and not mapped yet. *)
Theorem file_device_lifetime_balanced name args
    (map : gmap string (mmio_plugin_t file_plugin_data os_t))
    (os os1 : os_t) (d : mmio_plugin_device_t file_plugin_data os_t) :
  map !! name = Some file_plugin →
  (∀ fd, sys_close (env os) fd = 0) →
  (∀ f w, sys_open (env os) f w ∉ open_fds os) →
  (∀ l w fd, sys_mmap (env os) l w fd ≠ NULL ∧
             mappings os !! sys_mmap (env os) l w fd = None) →
  mmio_plugin_device_new name args map os = (Ok d, os1) →
  (user_data d = None →
     open_fds os1 = open_fds os ∧ mappings os1 = mappings os) ∧
  open_fds (mmio_plugin_device_delete d os1) = open_fds os ∧
  mappings (mmio_plugin_device_delete d os1) = mappings os.
Proof.
  intros Hl Hclose Hopen Hmmap Hnew.
  unfold mmio_plugin_device_new in Hnew. rewrite Hl in Hnew.
  cbn [alloc file_plugin] in Hnew.
  destruct (file_plugin_alloc args os) as [data os'] eqn:Halloc.
  injection Hnew as <- <-.
  unfold mmio_plugin_device_delete.
  cbn [plugin user_data dealloc file_plugin].
  destruct data as [data|].
  - split; [discriminate|].
    apply file_plugin_alloc_some_inv in Halloc
      as (filename & writable & _ & -> & _ & _ & _ & _ & _ & _ & Hfds & Hmaps).
    cbn [file_plugin_dealloc os_munmap open_fds mappings data_addr data_length].
    specialize (Hopen filename writable).
    set (fd := sys_open (env os) filename writable) in *.
    destruct (Hmmap (wrap64 (sys_lseek_end (env os) fd)) writable fd)
      as [_ Hfresh].
    set (addr := sys_mmap (env os) _ writable fd) in *.
    split.
    + rewrite Hfds. apply set_eq. intros x.
      rewrite elem_of_difference, elem_of_union, elem_of_singleton.
      split; [intros [[->|?] ?]; done|]. intros Hx. split; [by right|congruence].
    + rewrite Hmaps. destruct (addr =? MAP_FAILED).
      * by apply delete_id.
      * rewrite delete_insert_eq. by apply delete_id.
  - destruct (file_plugin_alloc_failure_releases args os os' Halloc Hclose
                Hopen Hmmap) as [Hfds Hmaps].
    cbn [file_plugin_dealloc]. done.
Qed.

Lemma file_device_lifetime_balanced_witness :
  let r := mmio_plugin_device_new "file" "w:/tmp/x" registry_start
             (os_start env_ok) in
  let d := {| plugin := file_plugin;
              user_data := Some {| data_fd := 3; data_addr := 139637976727552;
                                   data_length := 16;
                                   data_writable := true |} |} in
  open_fds (mmio_plugin_device_delete d r.2) = open_fds (os_start env_ok) ∧
  mappings (mmio_plugin_device_delete d r.2) = mappings (os_start env_ok).
Proof.
  intros r d.
  assert (mmio_plugin_device_new "file" "w:/tmp/x" registry_start
            (os_start env_ok) = (Ok d, r.2)) as Hr by reflexivity.
  assert (∀ f w, sys_open (env (os_start env_ok)) f w
                   ∉ open_fds (os_start env_ok)) as Hopen.
  { intros f w. unfold os_start. cbn [open_fds env env_ok sys_open].
    set_unfold. lia. }
  assert (∀ l w fd,
            sys_mmap (env (os_start env_ok)) l w fd ≠ NULL ∧
            mappings (os_start env_ok)
              !! sys_mmap (env (os_start env_ok)) l w fd = None) as Hmmap.
  { intros l w fd. split; [discriminate|]. apply lookup_empty. }
  exact (proj2 (file_device_lifetime_balanced "file" "w:/tmp/x" registry_start
                  (os_start env_ok) r.2 d eq_refl (λ _, eq_refl) Hopen Hmmap
                  Hr)).
Defined.

(** ** Worked instances on the two-page device *)

Lemma result_tuple {A B C D : Type} (r : A * B * C * D) (a : A) :
  r.1.1.1 = a → r = (a, r.1.1.2, r.1.2, r.2).
Proof. destruct r as [[[? ?] ?] ?]. simpl. by intros ->. Qed.



Lemma load_store_keeps_device_witness :
  let r := load_store 4090 8 [x01; x02; x03; x04; x05; x06; x07; x08] true
             mem_2pages heap_ok in
  mem_wf r.1.2 ∧ sz r.1.2 = 8192.
Proof.
  intros r.
  destruct (load_store_keeps_device 4090 8
              [x01; x02; x03; x04; x05; x06; x07; x08] true mem_2pages
              heap_ok r.1.1.1 r.1.1.2 r.1.2 r.2 mem_2pages_wf
              (result_tuple r r.1.1.1 eq_refl))
    as (Hwf & Hsz & _).
  split; [exact Hwf|exact Hsz].
Defined.

Lemma load_store_zero_length_witness :
  load_store 8192 0 [] true mem_2pages heap_full =
    (Ok true, [], mem_2pages, heap_full).
Proof.
  apply load_store_zero_length; [unfold is_reg; lia|simpl; lia].
Defined.

Lemma store_changes_its_range_only_witness :
  let r := load_store 4090 8 [x01; x02; x03; x04; x05; x06; x07; x08] true
             mem_2pages heap_ok in
  let rA := load_store 4094 8 (replicate 8 x00) false mem_2pages heap_ok in
  let rB := load_store 4094 8 (replicate 8 x00) false r.1.2 heap_ok in
  rB.1.1.2 !! 1%nat = Some x06 ∧ rB.1.1.2 !! 6%nat = rA.1.1.2 !! 6%nat.
Proof.
  intros r rA rB.
  assert (is_reg 4090) as Ha by (unfold is_reg; lia).
  assert (is_reg 4094) as Ha' by (unfold is_reg; lia).
  assert (is_reg 8) as Hl by (unfold is_reg; lia).
  assert (r.1.1.1 = Ok true) as Hr by (vm_compute; reflexivity).
  assert (rA.1.1.1 = Ok true) as HrA by (vm_compute; reflexivity).
  assert (rB.1.1.1 = Ok true) as HrB by (vm_compute; reflexivity).
  destruct (store_changes_its_range_only mem_2pages heap_ok 4090 8
              [x01; x02; x03; x04; x05; x06; x07; x08] r.1.1.2 r.1.2 r.2
              mem_2pages_wf Ha Hl eq_refl (result_tuple r _ Hr)
              4094 8 (replicate 8 x00) heap_ok heap_ok rA.1.1.2 rB.1.1.2
              rA.1.2 rB.1.2 rA.2 rB.2 Ha' Hl eq_refl
              (result_tuple rA _ HrA) (result_tuple rB _ HrB))
    as [_ Hbytes].
  split.
  - exact (Hbytes 1%nat ltac:(simpl; lia)).
  - exact (Hbytes 6%nat ltac:(simpl; lia)).
Defined.

Lemma load_writes_len_bytes_witness :
  let r := load_store 4090 4 [x01; x02; x03; x04; x05; x06] false
             mem_2pages heap_ok in
  length r.1.1.2 = 6%nat ∧ drop 4 r.1.1.2 = [x05; x06].
Proof.
  intros r.
  assert (is_reg 4090) as Ha by (unfold is_reg; lia).
  assert (is_reg 4) as Hl by (unfold is_reg; lia).
  assert (r.1.1.1 = Ok true) as Hr by (vm_compute; reflexivity).
  exact (load_writes_len_bytes mem_2pages heap_ok 4090 4
           [x01; x02; x03; x04; x05; x06] r.1.1.2 r.1.2 r.2 mem_2pages_wf
           Ha Hl ltac:(simpl; lia) (result_tuple r _ Hr)).
Defined.

Lemma load_is_repeatable_witness :
  let r := load_store 4090 8 (replicate 8 x01) false mem_2pages heap_ok in
  load_store 4090 8 (replicate 8 x02) false r.1.2 heap_full =
    (Ok true, r.1.1.2, r.1.2, heap_full).
Proof.
  intros r.
  assert (is_reg 4090) as Ha by (unfold is_reg; lia).
  assert (is_reg 8) as Hl by (unfold is_reg; lia).
  assert (r.1.1.1 = Ok true) as Hr by (vm_compute; reflexivity).
  exact (load_is_repeatable mem_2pages heap_ok 4090 8 (replicate 8 x01)
           r.1.1.2 r.1.2 r.2 mem_2pages_wf Ha Hl eq_refl
           (result_tuple r _ Hr) (replicate 8 x02) heap_full eq_refl).
Defined.
